(** * Hierarchical agent workflows: the deterministic Router and the
      Sequential / Parallel composition it sits beside.

    Part 1 embeds [MasterOrchestrator._run_async_impl] of
    [custom_workflows/test.py].  Part 2 models the Sequential and Parallel
    agents that [Workflow-1.py] and [Workflow-3.py] instantiate.  Part 3
    embeds the tools of [test.py], the prediction tools of [Workflow-2.py]
    and the loops of the [main] functions that print the Events. *)

From Stdlib Require Import String Ascii.
From stdpp Require Import gmap strings list pretty.

Open Scope string_scope.
Open Scope list_scope.

(** ** Python [str]: the [in] operator *)

(** [needle] is a prefix of [hay]. *)
Fixpoint startswith (hay needle : string) {struct needle} : bool :=
  match needle, hay with
  | EmptyString, _ => true
  | String a n', String b h' => if Ascii.eqb a b then startswith h' n' else false
  | String _ _, EmptyString => false
  end.

(** [needle in hay]: some suffix of [hay] starts with [needle]. *)
Fixpoint str_in (needle hay : string) : bool :=
  startswith hay needle ||
  match hay with
  | EmptyString => false
  | String _ h' => str_in needle h'
  end.

(** The mathematical reading of [in]: [hay] is [pre ++ needle ++ post]. *)
Definition contains (hay needle : string) : Prop :=
  exists pre post : string, hay = pre +:+ needle +:+ post.

(** [str.lower] on 7-bit letters; other bytes are left alone.  It is used
    to run the model on concrete texts; the Router below is stated for any
    lowering function. *)
Definition lower_ascii_char (c : ascii) : ascii :=
  let n := nat_of_ascii c in
  if (65 <=? n)%nat && (n <=? 90)%nat then ascii_of_nat (n + 32) else c.

Fixpoint lower_ascii (s : string) : string :=
  match s with
  | EmptyString => EmptyString
  | String c s' => String (lower_ascii_char c) (lower_ascii s')
  end.


(** ** What the Python runtime supplies to the Router *)

(** [Value] is the type of the objects held in session state, [lower] is
    [str.lower], and [format_value] is how an f-string renders a state
    value. *)
Class Runtime := {
  Value : Type;
  lower : string -> string;
  format_value : Value -> string;
}.

(** The runtime used to evaluate the model on plain texts: state values are
    strings (what an [output_key] stores) and render as themselves. *)
Definition ascii_runtime : Runtime :=
  {| Value := string; lower := lower_ascii; format_value := fun s => s |}.

(** ** Events and the invocation context ([google.genai.types], [google.adk]) *)

Record Part := { text : option string }.

Record Content := { role : option string; parts : option (list Part) }.

Record Event := { author : string; content : option Content }.

(** The session state the context refers to is threaded separately, see
    [Frame]. *)
Record InvocationContext := { user_content : option Content }.

(** ** Branch agents *)

(** A branch is an [LlmAgent] of the library, and the Router only drains
    the event stream of its [run_async].  An [LlmAgent] is given here by
    the runs of [run_async] that return: the events the run yields and the
    session state it leaves, as a function of the context and of the state
    it starts in.  The Router has no handler around the delegation, so a
    run in which the branch raises ends inside the delegation; such runs
    are not values of this type, they are added by [RunEnd] and
    [run_raising] below. *)
Record AgentRun `{Runtime} := {
  run_events : list Event;
  run_state : gmap string Value;
}.

Definition LlmAgent `{Runtime} : Type :=
  InvocationContext -> gmap string Value -> AgentRun.

Record MasterOrchestrator `{Runtime} := {
  name : string;
  math_branch : LlmAgent;
  time_branch : LlmAgent;
}.

Inductive Branch := TimeBranch | MathBranch.

Definition branch_of `{Runtime} (self : MasterOrchestrator) (b : Branch) : LlmAgent :=
  match b with
  | TimeBranch => time_branch self
  | MathBranch => math_branch self
  end.

(** ** The generator body as a state and error monad *)

(** What the Router itself does besides yielding: delegations to a branch
    and reads of the session state, in program order. *)
Inductive Effect :=
  | Delegate (b : Branch)
  | StateGet (key : string).

Inductive Exn :=
  | UnboundLocalError (var : string)
  | Propagated (e : string).

Inductive Outcome (A : Type) :=
  | Returned (a : A)
  | Raised (e : Exn).
Arguments Returned {A} a.
Arguments Raised {A} e.

(** The running generator: the session state behind [ctx.session.state],
    the events produced so far, the effect log, and the local variable
    [final_text] ([None] while it is unbound). *)
Record Frame `{Runtime} := {
  session_state : gmap string Value;
  yielded : list Event;
  effects : list Effect;
  final_text : option string;
}.

Definition Gen `{Runtime} (A : Type) : Type := Frame -> Frame * Outcome A.

#[global] Instance gen_ret `{Runtime} : MRet Gen :=
  fun A (a : A) (f : Frame) => (f, Returned a).

#[global] Instance gen_bind `{Runtime} : MBind Gen :=
  fun A B (k : A -> Gen B) (m : Gen A) (f : Frame) =>
    match m f with
    | (f', Returned a) => k a f'
    | (f', Raised e) => (f', Raised e)
    end.

(** [yield event] *)
Definition yield `{Runtime} (e : Event) : Gen unit := fun f =>
  ({| session_state := session_state f; yielded := yielded f ++ [e];
      effects := effects f; final_text := final_text f |}, Returned ()).

(** [async for event in branch.run_async(ctx): yield event] *)
Definition delegate `{Runtime} (self : MasterOrchestrator) (b : Branch)
    (ctx : InvocationContext) : Gen unit := fun f =>
  let r := branch_of self b ctx (session_state f) in
  ({| session_state := run_state r; yielded := yielded f ++ run_events r;
      effects := effects f ++ [Delegate b]; final_text := final_text f |},
   Returned ()).

(** [ctx.session.state.get(key, default)]: the stored value, or the default
    string when the key is absent. *)
Definition state_get `{Runtime} (key default : string) : Gen (Value + string) :=
  fun f =>
  ({| session_state := session_state f; yielded := yielded f;
      effects := effects f ++ [StateGet key]; final_text := final_text f |},
   Returned (match session_state f !! key with
             | Some v => inl v
             | None => inr default
             end)).

(** [f"{result}"] *)
Definition fstr `{Runtime} (result : Value + string) : string :=
  match result with
  | inl v => format_value v
  | inr s => s
  end.

(** [final_text = s] *)
Definition assign_final_text `{Runtime} (s : string) : Gen unit := fun f =>
  ({| session_state := session_state f; yielded := yielded f;
      effects := effects f; final_text := Some s |}, Returned ()).

(** A read of the local [final_text]. *)
Definition load_final_text `{Runtime} : Gen string := fun f =>
  (f, match final_text f with
      | Some s => Returned s
      | None => Raised (UnboundLocalError "final_text")
      end).

(** ** [MasterOrchestrator._run_async_impl] *)

(** Lines 143-145: the text of the first part of the user message, or the
    empty string. *)
Definition user_input (ctx : InvocationContext) : string :=
  match user_content ctx with
  | Some c =>
      match parts c with
      | Some (p :: _) => match text p with Some t => t | None => "" end
      | Some [] | None => ""
      end
  | None => ""
  end.

(** Lines 139-178.  The [logger.info] calls do not touch the run and are
    left out. *)
Definition _run_async_impl `{Runtime} (self : MasterOrchestrator)
    (ctx : InvocationContext) : Gen unit :=
  let user_input_lower := lower (user_input ctx) in
  (if str_in "time" user_input_lower then
     delegate self TimeBranch ctx ;;
     result ← state_get "time_result" "Unknown Time" ;
     assign_final_text ("The time is: " +:+ fstr result)
   else if str_in "add" user_input_lower || str_in "subtract" user_input_lower
           || str_in "+" user_input_lower || str_in "-" user_input_lower then
     delegate self MathBranch ctx ;;
     result ← state_get "calc_result" "Unknown Result" ;
     assign_final_text ("The calculated result is: " +:+ fstr result)
   else
     assign_final_text "I can only help with Math or Time requests.") ;;
  final_text ← load_final_text ;
  yield {| author := name self;
           content := Some {| role := Some "model";
                              parts := Some [ {| text := Some final_text |} ] |} |}.

(** One invocation of the Router on a session whose state is [st]. *)
Definition run `{Runtime} (self : MasterOrchestrator) (ctx : InvocationContext)
    (st : gmap string Value) : Frame * Outcome unit :=
  _run_async_impl self ctx
    {| session_state := st; yielded := []; effects := []; final_text := None |}.

(** The branches the Router delegated to, in order. *)
Definition delegations (l : list Effect) : list Branch :=
  omap (fun e => match e with Delegate b => Some b | StateGet _ => None end) l.

(** The Events those branches yielded when run from the state [st]. *)
Definition delegated_events `{Runtime} (self : MasterOrchestrator)
    (ctx : InvocationContext) (st : gmap string Value) (bs : list Branch) : list Event :=
  concat ((fun b => run_events (branch_of self b ctx st)) <$> bs).

(** The user message is absent, has no parts, or its first part has no
    text. *)
Definition message_absent (ctx : InvocationContext) : Prop :=
  match user_content ctx with
  | None => True
  | Some c =>
      match parts c with
      | None | Some [] => True
      | Some (p :: _) => text p = None \/ text p = Some ""
      end
  end.


(** ** Invocations in which the branch may raise *)

(** How the run of a branch ends: its [run_async] is exhausted, or it
    raises the exception [e]. *)
Inductive RunEnd :=
  | RunReturns
  | RunRaises (e : string).

(** For each branch, how its run from a context and a session state ends.
    When it raises, the [LlmAgent] of the branch gives the events it
    yielded and the state it left before the exception. *)
Definition BranchEnds `{Runtime} : Type :=
  Branch -> InvocationContext -> gmap string Value -> RunEnd.

(** [async for event in branch.run_async(ctx): yield event] in general:
    the events of the branch are passed on; when the branch raises, the
    exception leaves the loop, and the Router, which has no handler. *)
Definition delegate_raising `{Runtime} (self : MasterOrchestrator)
    (ends : BranchEnds) (b : Branch) (ctx : InvocationContext) : Gen unit :=
  fun f =>
  let r := branch_of self b ctx (session_state f) in
  ({| session_state := run_state r; yielded := yielded f ++ run_events r;
      effects := effects f ++ [Delegate b]; final_text := final_text f |},
   match ends b ctx (session_state f) with
   | RunReturns => Returned ()
   | RunRaises e => Raised (Propagated e)
   end).

(** Lines 139-178 again, with delegations that may raise. *)
Definition _run_async_impl_raising `{Runtime} (self : MasterOrchestrator)
    (ends : BranchEnds) (ctx : InvocationContext) : Gen unit :=
  let user_input_lower := lower (user_input ctx) in
  (if str_in "time" user_input_lower then
     delegate_raising self ends TimeBranch ctx ;;
     result ← state_get "time_result" "Unknown Time" ;
     assign_final_text ("The time is: " +:+ fstr result)
   else if str_in "add" user_input_lower || str_in "subtract" user_input_lower
           || str_in "+" user_input_lower || str_in "-" user_input_lower then
     delegate_raising self ends MathBranch ctx ;;
     result ← state_get "calc_result" "Unknown Result" ;
     assign_final_text ("The calculated result is: " +:+ fstr result)
   else
     assign_final_text "I can only help with Math or Time requests.") ;;
  final_text ← load_final_text ;
  yield {| author := name self;
           content := Some {| role := Some "model";
                              parts := Some [ {| text := Some final_text |} ] |} |}.

(** One invocation of the Router on a session whose state is [st], the
    branches ending as [ends] says. *)
Definition run_raising `{Runtime} (self : MasterOrchestrator) (ends : BranchEnds)
    (ctx : InvocationContext) (st : gmap string Value) : Frame * Outcome unit :=
  _run_async_impl_raising self ends ctx
    {| session_state := st; yielded := []; effects := []; final_text := None |}.

(** The branch the Router delegates to in this invocation, if there is
    one, returns. *)
Definition selected_branch_returns `{Runtime} (self : MasterOrchestrator)
    (ends : BranchEnds) (ctx : InvocationContext) (st : gmap string Value) : Prop :=
  forall b,
    delegations (effects (run_raising self ends ctx st).1) = [b] ->
    ends b ctx st = RunReturns.

(** ** The runs of [main] in [test.py] *)

Definition user_message (t : string) : InvocationContext :=
  {| user_content :=
       Some {| role := Some "user"; parts := Some [ {| text := Some t |} ] |} |}.

Definition math_query : string :=
  "What is 9 added to 5 and then 13 subtracted from the result?".

Definition time_query : string := "What is the time?".

Definition weather_query : string :=
  "What is the time in and weather in New York. After fetching time and weather, add the temperature in fahreinheit and minutes of the times fetched.?".

Definition text_event (who t : string) : Event :=
  {| author := who;
     content := Some {| role := Some "model"; parts := Some [ {| text := Some t |} ] |} |}.

(** Stand-ins for the two language-model branches: one that answers and
    stores its answer under its output key, one that yields and stores
    nothing. *)
Definition answering_branch (who key answer : string) : @LlmAgent ascii_runtime :=
  fun _ st =>
    {| run_events := [text_event who answer]; run_state := <[key := answer]> st |}.

Definition silent_branch : @LlmAgent ascii_runtime :=
  fun _ st => {| run_events := []; run_state := st |}.

Definition master : @MasterOrchestrator ascii_runtime :=
  {| name := "MasterOrchestrator";
     math_branch := answering_branch "ArithmeticAgent" "calc_result" "1";
     time_branch := answering_branch "TimeWeatherAgent" "time_result" "12:00:00" |}.

Definition silent_master : @MasterOrchestrator ascii_runtime :=
  {| name := "MasterOrchestrator";
     math_branch := silent_branch;
     time_branch := silent_branch |}.

(** Ways for the branches to end: both return; the time branch raises; the
    math branch raises. *)
Definition both_return : @BranchEnds ascii_runtime :=
  fun _ _ _ => RunReturns.

Definition time_branch_raises : @BranchEnds ascii_runtime :=
  fun b _ _ =>
    match b with
    | TimeBranch => RunRaises "AuthenticationError"
    | MathBranch => RunReturns
    end.

Definition math_branch_raises : @BranchEnds ascii_runtime :=
  fun b _ _ =>
    match b with
    | TimeBranch => RunReturns
    | MathBranch => RunRaises "RateLimitError"
    end.

(** ** Leaf, Sequential and Parallel agents *)

#[local] Set Warnings "-register-all".

(** Modelled from the spec: the external capability a Leaf wraps (sections
    4.2 and 6), missing from the sources because it is a language model
    behind the library's [LlmAgent].  It is called on the request text and
    a snapshot of the state and delivers one result, or fails ([None]). *)
Definition Capability `{Runtime} : Type :=
  string -> gmap string Value -> option Value.

(** Modelled from the spec: the agent variants of section 3 other than the
    Router.  The classes [LlmAgent], [SequentialAgent] and [ParallelAgent]
    that implement them belong to the agent library; only their
    instantiations are in the repository. *)
Inductive Agent `{Runtime} : Type :=
  | Leaf (leaf_name : string) (capability : Capability) (output_key : option string)
  | Sequential (seq_name : string) (sub_agents : list Agent)
  | Parallel (par_name : string) (sub_agents : list Agent).

Definition agent_name `{Runtime} (a : Agent) : string :=
  match a with
  | Leaf n _ _ | Sequential n _ | Parallel n _ => n
  end.

(** Modelled from the spec: an agent in the middle of its run (the
    suspension points of section 5), missing with the library classes.
    [Await] is a Leaf suspended on its
    capability: the call was made on the snapshot taken when it started and
    [result] is what it will deliver ([None]: the capability fails).
    [SeqRun] holds the running child and the children not yet started,
    [ParRun] the children of a group under their names. *)
Inductive Task `{Runtime} : Type :=
  | Start (a : Agent)
  | Await (leaf_name : string) (output_key : option string) (result : option Value)
  | SeqRun (current : Task) (rest : list Agent)
  | ParRun (kids : list (string * Task))
  | Done
  | Failed (who : list string).

Definition terminal `{Runtime} (t : Task) : Prop :=
  t = Done \/ exists who, t = Failed who.

(** Modelled from the spec: the one Event a Leaf produces for its result,
    authored by the Leaf's name (section 4.2); [LlmAgent] is library
    code. *)
Definition summary `{Runtime} (leaf_name : string) (v : Value) : Event :=
  text_event leaf_name (format_value v).

(** Modelled from the spec: the write of a Leaf's result under its output
    key, when it declares one (section 4.2); [LlmAgent] is library code. *)
Definition write `{Runtime} (output_key : option string) (v : Value)
    (st : gmap string Value) : gmap string Value :=
  match output_key with
  | Some k => <[k := v]> st
  | None => st
  end.

(** Modelled from the spec: the identities of the children of a group that
    failed, which its aggregate failure reports (section 4.4);
    [ParallelAgent] is library code. *)
Definition failures `{Runtime} (kids : list (string * Task)) : list string :=
  omap (fun kid => match kid.2 with Failed _ => Some kid.1 | _ => None end) kids.

(** Modelled from the spec: the runs of the library classes [LlmAgent],
    [SequentialAgent] and [ParallelAgent], after sections 4.2 to 4.4 and 5.
    A Leaf invokes its capability on the request text and a snapshot of
    the state, suspends until the result arrives, then writes it under its
    output key and produces one Event, or fails having written nothing; a
    Sequential agent drains its children one after another and stops at
    the first failure; a Parallel agent lets its children overlap, waits
    for each of them and reports the ones that failed.  [step] is one step
    on the request text [req]: the task and the state before, the Events
    produced, the task and the state after.  Which child of a Parallel
    group moves is not determined. *)
Inductive step `{Runtime} (req : string) :
    Task -> gmap string Value -> list Event -> Task -> gmap string Value -> Prop :=
  | step_leaf_invoke n cap k st :
      step req (Start (Leaf n cap k)) st [] (Await n k (cap req st)) st
  | step_leaf_result n k v st :
      step req (Await n k (Some v)) st [summary n v] Done (write k v st)
  | step_leaf_failure n k st :
      step req (Await n k None) st [] (Failed [n]) st
  | step_seq_start n kids st :
      step req (Start (Sequential n kids)) st [] (SeqRun Done kids) st
  | step_seq_next a rest st :
      step req (SeqRun Done (a :: rest)) st [] (SeqRun (Start a) rest) st
  | step_seq_child cur cur' rest st st' es :
      step req cur st es cur' st' ->
      step req (SeqRun cur rest) st es (SeqRun cur' rest) st'
  | step_seq_failure who rest st :
      step req (SeqRun (Failed who) rest) st [] (Failed who) st
  | step_seq_done st :
      step req (SeqRun Done []) st [] Done st
  | step_par_start n kids st :
      step req (Start (Parallel n kids)) st []
        (ParRun ((fun a => (agent_name a, Start a)) <$> kids)) st
  | step_par_child pre n cur cur' post st st' es :
      step req cur st es cur' st' ->
      step req (ParRun (pre ++ (n, cur) :: post)) st es
        (ParRun (pre ++ (n, cur') :: post)) st'
  | step_par_done kids st :
      Forall (fun kid => kid.2 = Done) kids ->
      step req (ParRun kids) st [] Done st
  | step_par_failure kids st :
      Forall (fun kid => terminal kid.2) kids ->
      failures kids <> [] ->
      step req (ParRun kids) st [] (Failed (failures kids)) st.

(** Modelled from the spec: a run of such an agent, zero or more steps with
    the Events in the order produced (section 3, Event ordering). *)
Inductive steps `{Runtime} (req : string) :
    Task -> gmap string Value -> list Event -> Task -> gmap string Value -> Prop :=
  | steps_refl t st :
      steps req t st [] t st
  | steps_step t st es t1 st1 es' t2 st2 :
      step req t st es t1 st1 ->
      steps req t1 st1 es' t2 st2 ->
      steps req t st (es ++ es') t2 st2.

(** ** The agents of [Workflow-3.py] and [Workflow-1.py] *)

(** The language model behind each Leaf is its capability. *)
Definition PROS_Agent `{Runtime} (llm : Capability) : Agent :=
  Leaf "PROSAgent" llm (Some "PROS").

Definition CONS_Agent `{Runtime} (llm : Capability) : Agent :=
  Leaf "CONSAgent" llm (Some "CONS").

Definition parallel_stage `{Runtime} (pros cons : Capability) : Agent :=
  Parallel "ParallelStage" [PROS_Agent pros; CONS_Agent cons].

Definition final_agent `{Runtime} (llm : Capability) : Agent :=
  Leaf "FinalSynthesizer" llm None.

Definition orchestrator `{Runtime} (pros cons final : Capability) : Agent :=
  Sequential "Orchestrator" [parallel_stage pros cons; final_agent final].

Definition country_agent `{Runtime} (llm : Capability) : Agent :=
  Leaf "CountryAgent" llm (Some "country_recommendations").

Definition city_agent `{Runtime} (llm : Capability) : Agent :=
  Leaf "CityAgent" llm (Some "city_recommendations").

Definition orchestrator_agent `{Runtime} (country city : Capability) : Agent :=
  Sequential "OrchestratorAgent" [country_agent country; city_agent city].

(** The state keys an agent writes when it runs to the end: the output keys
    of its Leaves. *)
Fixpoint output_keys `{Runtime} (a : Agent) : list string :=
  match a with
  | Leaf _ _ k => option_list k
  | Sequential _ kids | Parallel _ kids => kids ≫= output_keys
  end.

(** Induction on agents that reaches the children of a composite. *)
Fixpoint Agent_children_ind `{Runtime} (P : Agent -> Prop)
    (Hleaf : forall n cap k, P (Leaf n cap k))
    (Hseq : forall n kids, Forall P kids -> P (Sequential n kids))
    (Hpar : forall n kids, Forall P kids -> P (Parallel n kids))
    (a : Agent) : P a :=
  let all := fix all (l : list Agent) : Forall P l :=
    match l with
    | [] => @List.Forall_nil _ P
    | x :: l' =>
        @List.Forall_cons _ P x l' (Agent_children_ind P Hleaf Hseq Hpar x) (all l')
    end in
  match a with
  | Leaf n cap k => Hleaf n cap k
  | Sequential n kids => Hseq n kids (all kids)
  | Parallel n kids => Hpar n kids (all kids)
  end.

(** [may_write t k]: the task [t] still holds a Leaf that has not delivered
    its result and whose output key is [k]. *)
Inductive may_write `{Runtime} : Task -> string -> Prop :=
  | may_write_start a k :
      k ∈ output_keys a -> may_write (Start a) k
  | may_write_await n k r :
      may_write (Await n (Some k) r) k
  | may_write_seq_current cur rest k :
      may_write cur k -> may_write (SeqRun cur rest) k
  | may_write_seq_rest cur rest a k :
      a ∈ rest -> k ∈ output_keys a -> may_write (SeqRun cur rest) k
  | may_write_par kids kid k :
      kid ∈ kids -> may_write kid.2 k -> may_write (ParRun kids) k.

(** [owes t k]: a run of [t] cannot end in [Done] unless [k] gets written;
    a failed task owes every key for good. *)
Inductive owes `{Runtime} : Task -> string -> Prop :=
  | owes_start a k :
      k ∈ output_keys a -> owes (Start a) k
  | owes_await n k r :
      owes (Await n (Some k) r) k
  | owes_seq_current cur rest k :
      owes cur k -> owes (SeqRun cur rest) k
  | owes_seq_rest cur rest a k :
      a ∈ rest -> k ∈ output_keys a -> owes (SeqRun cur rest) k
  | owes_par kids kid k :
      kid ∈ kids -> owes kid.2 k -> owes (ParRun kids) k
  | owes_failed who k :
      owes (Failed who) k.

(** Where the Leaf [m], with capability [cap] and output key [k], stands in
    a run on [req]: not started, suspended on the call it made on some
    snapshot, done with its own result stored under [k], or failed. *)
Definition leaf_progress `{Runtime} (req m : string) (cap : Capability)
    (k : string) (t : Task) (st : gmap string Value) : Prop :=
  t = Start (Leaf m cap (Some k))
  \/ (exists s, t = Await m (Some k) (cap req s))
  \/ (t = Done /\ exists s v, cap req s = Some v /\ st !! k = Some v)
  \/ (exists who, t = Failed who).

(** The children of a group in which that Leaf is the child number [i] and
    no other child can write [k]. *)
Definition group_inv `{Runtime} (req m : string) (cap : Capability)
    (k : string) (i : nat) (kids : list (string * Task))
    (st : gmap string Value) : Prop :=
  (exists kid, kids !! i = Some kid /\ leaf_progress req m cap k kid.2 st)
  /\ (forall j kid, j <> i -> kids !! j = Some kid -> ~ may_write kid.2 k).

(** The agent [a] has, from every state, a run on [req] that reaches its
    end. *)
Definition completes `{Runtime} (req : string) (a : Agent) : Prop :=
  forall st, exists evs t st',
    steps req (Start a) st evs t st' /\ terminal t.

(** Stand-ins for the language models of [Workflow-3.py], used to run the
    model: each answers with a fixed text; the synthesizer answers with the
    assessments it finds in the state. *)
Definition fixed_answer (answer : string) : @Capability ascii_runtime :=
  fun _ _ => Some answer.

Definition synthesize : @Capability ascii_runtime :=
  fun _ st =>
    match st !! "PROS", st !! "CONS" with
    | Some p, Some c => Some (p +:+ " / " +:+ c)
    | _, _ => None
    end.

(** ** Tools, coroutines and their effects *)

(** *** The arithmetic tools of [test.py]; Python integers are unbounded *)

Definition add (a b : Z) : Z := (a + b)%Z.

Definition subtract (a b : Z) : Z := (a - b)%Z.

(** *** Coroutines that use outside resources *)

(** What a tool does to the outside, in program order: the weather client
    is created, queried and closed; an HTTP session is opened, sends a GET
    request, releases the response and is closed. *)
Inductive IOEvent :=
  | WeatherClientNew (unit : string)
  | WeatherGet (city : string)
  | WeatherClientClose
  | SessionOpen
  | HttpGet (url : string) (params : list (string * string)) (timeout : Z)
  | ResponseRelease
  | SessionClose.

(** An exception raised by a service or by its client library, named by
    the service, and the [AttributeError] of a missing method. *)
Inductive IOExn :=
  | ServiceError (what : string)
  | AttributeError (attr : string).

(** A coroutine run to its end: it extends the log of effects and returns
    a value or raises. *)
Definition Coro (A : Type) : Type :=
  list IOEvent -> list IOEvent * (IOExn + A).

#[global] Instance coro_ret : MRet Coro :=
  fun A (a : A) log => (log, inr a).

#[global] Instance coro_bind : MBind Coro :=
  fun A B (k : A -> Coro B) (m : Coro A) log =>
    match m log with
    | (log', inr a) => k a log'
    | (log', inl e) => (log', inl e)
    end.

Definition emit (e : IOEvent) : Coro unit := fun log => (log ++ [e], inr ()).

Definition raise {A : Type} (e : IOExn) : Coro A := fun log => (log, inl e).

(** [async with enter as r: body]: when [enter] raises, nothing more
    happens; otherwise the exit runs after the body on every path, and an
    exception of the body goes on after it unless the exit raises one of
    its own. *)
Definition async_with {R A : Type} (enter : Coro R) (exit : R -> Coro unit)
    (body : R -> Coro A) : Coro A := fun log =>
  match enter log with
  | (log1, inl e) => (log1, inl e)
  | (log1, inr r) =>
      match body r log1 with
      | (log2, inr a) =>
          match exit r log2 with
          | (log3, inr _) => (log3, inr a)
          | (log3, inl e) => (log3, inl e)
          end
      | (log2, inl e) =>
          match exit r log2 with
          | (log3, inr _) => (log3, inl e)
          | (log3, inl e') => (log3, inl e')
          end
      end
  end.

(** *** [tell_weather] of [test.py] *)

(** The weather service: the temperature it reports for a city, or the
    exception its client raises. *)
Definition WeatherService : Type := string -> string + Z.

(** [await client.get(city)] followed by [.temperature] *)
Definition weather_get (service : WeatherService) (city : string) : Coro Z :=
  fun log =>
    (log ++ [WeatherGet city],
     match service city with
     | inl e => inl (ServiceError e)
     | inr temperature => inr temperature
     end).

(** Lines 44-49.  An integer inside an f-string is rendered in decimal. *)
Definition tell_weather (service : WeatherService) (city : string) : Coro string :=
  emit (WeatherClientNew "IMPERIAL") ;;
  temperature ← weather_get service city ;
  emit WeatherClientClose ;;
  mret ("The current temperature in " +:+ city +:+ " is "
        +:+ pretty temperature +:+ "°F.").

(** *** The prediction tools of [Workflow-2.py] *)

(** Python values as the JSON decoder and the tools build them.  A float
    is only passed on, so it is kept as its literal. *)
Inductive PyObj :=
  | PyNone
  | PyBool (b : bool)
  | PyInt (z : Z)
  | PyFloat (literal : string)
  | PyStr (s : string)
  | PyList (l : list PyObj)
  | PyDict (d : gmap string PyObj).

(** What the network answers to a GET request: the request raises, or a
    response arrives whose body decodes to a value or makes [resp.json()]
    raise. *)
Inductive HttpReply :=
  | RequestFailed (e : string)
  | Response (body : string + PyObj).

Definition Http : Type := string -> list (string * string) -> HttpReply.

(** [aiohttp.ClientSession()] entered and left by [async with] *)
Definition client_session : Coro unit := emit SessionOpen.

Definition session_close (_ : unit) : Coro unit := emit SessionClose.

(** [session.get(url, params=..., timeout=ClientTimeout(total=...))]
    entered and left by [async with] *)
Definition session_get (http : Http) (url : string)
    (params : list (string * string)) (timeout : Z) : Coro (string + PyObj) :=
  fun log =>
    (log ++ [HttpGet url params timeout],
     match http url params with
     | RequestFailed e => inl (ServiceError e)
     | Response body => inr body
     end).

Definition response_release (_ : string + PyObj) : Coro unit :=
  emit ResponseRelease.

(** [await resp.json()] *)
Definition resp_json (body : string + PyObj) : Coro PyObj :=
  match body with
  | inl e => raise (ServiceError e)
  | inr data => mret data
  end.

(** [data.get(key)]: the entry of a dict or [None]; any other value has no
    method [get]. *)
Definition py_get (data : PyObj) (key : string) : Coro PyObj :=
  match data with
  | PyDict d => mret (default PyNone (d !! key))
  | _ => raise (AttributeError "get")
  end.

(** Lines 24-39. *)
Definition fetch_age (http : Http) (name : string) : Coro PyObj :=
  data ← async_with client_session session_close (fun _ =>
            async_with
              (session_get http "https://api.agify.io" [("name", name)] 5)
              response_release
              (fun resp => resp_json resp)) ;
  age ← py_get data "age" ;
  count ← py_get data "count" ;
  mret (PyDict {[ "age" := age; "count" := count ]}).

(** Lines 45-60. *)
Definition fetch_gender (http : Http) (name : string) : Coro PyObj :=
  data ← async_with client_session session_close (fun _ =>
            async_with
              (session_get http "https://api.genderize.io" [("name", name)] 5)
              response_release
              (fun resp => resp_json resp)) ;
  gender ← py_get data "gender" ;
  probability ← py_get data "probability" ;
  mret (PyDict {[ "gender" := gender; "probability" := probability ]}).

(** [await asyncio.gather(a, b)] on the results of the two coroutines: the
    pair of both values in the order of the arguments, or the exception
    that was raised first; [left_first] tells whether the left coroutine
    ended before the right one. *)
Definition gather {A B : Type} (left_first : bool)
    (ra : IOExn + A) (rb : IOExn + B) : IOExn + (A * B) :=
  match ra, rb with
  | inr a, inr b => inr (a, b)
  | inl e, inr _ => inl e
  | inr _, inl e => inl e
  | inl ea, inl eb => inl (if left_first then ea else eb)
  end.

(** Lines 66-83, as the value returned or the exception raised.  Each of
    the two coroutines runs in a session of its own. *)
Definition fetch_demographics (left_first : bool) (http : Http)
    (name : string) : IOExn + PyObj :=
  match gather left_first (fetch_age http name []).2 (fetch_gender http name []).2 with
  | inl e => inl e
  | inr (age, gender) =>
      inr (PyDict {[ "name" := PyStr name;
                     "age_prediction" := age;
                     "gender_prediction" := gender ]})
  end.

(** *** The loops of [main] that print the Events *)

(** [test.py], [Workflow-1.py] and [Workflow-3.py]: the text of the first
    part of every Event that has content and parts; a part without text
    prints as [None]. *)
Definition printed_line (event : Event) : option string :=
  match content event with
  | Some c =>
      match parts c with
      | Some (part :: _) =>
          Some (match text part with Some t => t | None => "None" end)
      | Some [] | None => None
      end
  | None => None
  end.

Definition print_events (events : list Event) : list string :=
  omap printed_line events.



(** *** Services used to run the tools *)

Definition sunny : WeatherService := fun _ => inr 72%Z.

Definition unreachable_weather : WeatherService := fun _ => inl "RequestError".

(** A network in which agify answers with more fields than the tool keeps
    and genderize answers without a probability. *)
Definition sample_http : Http := fun url params =>
  if decide (url = "https://api.agify.io") then
    Response (inr (PyDict {[ "name" := PyStr "Aditya"; "age" := PyInt 33;
                             "count" := PyInt 2061 ]}))
  else if decide (url = "https://api.genderize.io") then
    Response (inr (PyDict {[ "gender" := PyStr "male" ]}))
  else RequestFailed "ClientConnectorError".

Definition offline : Http := fun _ _ => RequestFailed "ClientConnectorError".

(** * Properties *)

(** ** Substring search *)

Lemma startswith_spec hay needle :
  startswith hay needle = true <-> exists post, hay = needle +:+ post.
Proof.
  revert hay. induction needle as [|a n IH]; intros hay; simpl.
  - split; [intros _; by exists hay | done].
  - destruct hay as [|b h].
    + split; [done | intros [post H]; discriminate].
    + destruct (Ascii.eqb_spec a b) as [->|Hne].
      * rewrite IH. split; intros [post H]; exists post.
        -- by rewrite H.
        -- by injection H.
      * split; [done | intros [post H]; injection H; intros; by subst].
Qed.

Lemma str_in_spec needle hay :
  str_in needle hay = true <-> contains hay needle.
Proof.
  unfold contains. induction hay as [|b h IH]; simpl.
  - rewrite orb_false_r, startswith_spec. split.
    + intros [post H]. by exists "", post.
    + intros ([|c pre] & post & H); [by exists post | discriminate].
  - rewrite orb_true_iff, startswith_spec, IH. split.
    + intros [[post H] | (pre & post & H)].
      * by exists "", post.
      * exists (String b pre), post. simpl. by rewrite H.
    + intros ([|c pre] & post & H).
      * left. by exists post.
      * right. injection H as -> H. by exists pre, post.
Qed.

Lemma str_in_false needle hay :
  str_in needle hay = false <-> ~ contains hay needle.
Proof.
  rewrite <- str_in_spec. destruct (str_in needle hay); split; try done.
Qed.

(** ** The Router: what a run is, arm by arm *)

Section RouterRuns.
Context `{Runtime}.
Variables (self : MasterOrchestrator) (ctx : InvocationContext).
Variable st : gmap string Value.

Let user_input_lower := lower (user_input ctx).

Lemma run_time_arm :
  str_in "time" user_input_lower = true ->
  run self ctx st =
    let r := time_branch self ctx st in
    let t := "The time is: " +:+
             fstr (match run_state r !! "time_result" with
                   | Some v => inl v
                   | None => inr "Unknown Time"
                   end) in
    ({| session_state := run_state r;
        yielded := run_events r ++ [text_event (name self) t];
        effects := [Delegate TimeBranch; StateGet "time_result"];
        final_text := Some t |}, Returned ()).
Proof.
  intros Ht. unfold run, _run_async_impl. fold user_input_lower.
  rewrite Ht. reflexivity.
Qed.

Lemma run_math_arm :
  str_in "time" user_input_lower = false ->
  str_in "add" user_input_lower || str_in "subtract" user_input_lower
    || str_in "+" user_input_lower || str_in "-" user_input_lower = true ->
  run self ctx st =
    let r := math_branch self ctx st in
    let t := "The calculated result is: " +:+
             fstr (match run_state r !! "calc_result" with
                   | Some v => inl v
                   | None => inr "Unknown Result"
                   end) in
    ({| session_state := run_state r;
        yielded := run_events r ++ [text_event (name self) t];
        effects := [Delegate MathBranch; StateGet "calc_result"];
        final_text := Some t |}, Returned ()).
Proof.
  intros Ht Hm. unfold run, _run_async_impl. fold user_input_lower.
  rewrite Ht, Hm. reflexivity.
Qed.

Lemma run_no_match_arm :
  str_in "time" user_input_lower = false ->
  str_in "add" user_input_lower || str_in "subtract" user_input_lower
    || str_in "+" user_input_lower || str_in "-" user_input_lower = false ->
  run self ctx st =
    let t := "I can only help with Math or Time requests." in
    ({| session_state := st;
        yielded := [text_event (name self) t];
        effects := [];
        final_text := Some t |}, Returned ()).
Proof.
  intros Ht Hm. unfold run, _run_async_impl. fold user_input_lower.
  rewrite Ht, Hm. reflexivity.
Qed.

(** The three arms cover every input. *)
Lemma run_cases :
  (str_in "time" user_input_lower = true)
  \/ (str_in "time" user_input_lower = false /\
      str_in "add" user_input_lower || str_in "subtract" user_input_lower
        || str_in "+" user_input_lower || str_in "-" user_input_lower = true)
  \/ (str_in "time" user_input_lower = false /\
      str_in "add" user_input_lower || str_in "subtract" user_input_lower
        || str_in "+" user_input_lower || str_in "-" user_input_lower = false).
Proof.
  destruct (str_in "time" user_input_lower); [by left | right].
  destruct (_ || _); [left | right]; done.
Qed.
End RouterRuns.

(** ** The Router on the three queries of [main] *)

Example math_query_run :
  effects (run master (user_message math_query) ∅).1
  = [Delegate MathBranch; StateGet "calc_result"]
  /\ yielded (run master (user_message math_query) ∅).1
     = [text_event "ArithmeticAgent" "1";
        text_event "MasterOrchestrator" "The calculated result is: 1"].
Proof. split; vm_compute; reflexivity. Qed.

Example time_query_run :
  effects (run master (user_message time_query) ∅).1
  = [Delegate TimeBranch; StateGet "time_result"]
  /\ yielded (run master (user_message time_query) ∅).1
     = [text_event "TimeWeatherAgent" "12:00:00";
        text_event "MasterOrchestrator" "The time is: 12:00:00"].
Proof. split; vm_compute; reflexivity. Qed.

(** The third query mentions the time and asks to add: it goes to the time
    branch. *)
Example weather_query_run :
  str_in "add" (lower_ascii weather_query) = true
  /\ effects (run master (user_message weather_query) ∅).1
     = [Delegate TimeBranch; StateGet "time_result"]
  /\ yielded (run master (user_message weather_query) ∅).1
     = [text_event "TimeWeatherAgent" "12:00:00";
        text_event "MasterOrchestrator" "The time is: 12:00:00"].
Proof. repeat split; vm_compute; reflexivity. Qed.

Example greeting_run :
  run master (user_message "Hello there") ∅
  = ({| session_state := ∅;
        yielded := [text_event "MasterOrchestrator"
                      "I can only help with Math or Time requests."];
        effects := [];
        final_text := Some "I can only help with Math or Time requests." |},
     Returned ()).
Proof. vm_compute. reflexivity. Qed.

(** ** The Router: routing *)

(** C1. When the lower-cased request text contains "time" and also one of
    the math keywords "add", "subtract", "+", "-", the Router delegates to
    the time branch, once, and never to the math branch: the time rule is
    tested first. *)
Theorem router_time_rule_first `{Runtime} (self : MasterOrchestrator)
    (ctx : InvocationContext) (st : gmap string Value) :
  contains (lower (user_input ctx)) "time" ->
  contains (lower (user_input ctx)) "add"
    \/ contains (lower (user_input ctx)) "subtract"
    \/ contains (lower (user_input ctx)) "+"
    \/ contains (lower (user_input ctx)) "-" ->
  delegations (effects (run self ctx st).1) = [TimeBranch]
  /\ effects (run self ctx st).1 = [Delegate TimeBranch; StateGet "time_result"]
  /\ exists result, final_text (run self ctx st).1 = Some ("The time is: " +:+ result).
Proof.
  intros Ht%str_in_spec _. rewrite run_time_arm by done. cbn.
  repeat split. eauto.
Qed.

Lemma router_time_rule_first_witness :
  delegations (effects (run master (user_message weather_query) ∅).1) = [TimeBranch]
  /\ effects (run master (user_message weather_query) ∅).1
     = [Delegate TimeBranch; StateGet "time_result"]
  /\ exists result,
       final_text (run master (user_message weather_query) ∅).1
       = Some ("The time is: " +:+ result).
Proof.
  apply (router_time_rule_first master (user_message weather_query) ∅).
  - apply str_in_spec. vm_compute. reflexivity.
  - left. apply str_in_spec. vm_compute. reflexivity.
Defined.

(** C8. When the lower-cased request text does not contain "time" but
    contains the character "-" anywhere, the Router delegates to the math
    branch and does not take the fallback. *)
Theorem router_hyphen_is_math `{Runtime} (self : MasterOrchestrator)
    (ctx : InvocationContext) (st : gmap string Value) :
  ~ contains (lower (user_input ctx)) "time" ->
  contains (lower (user_input ctx)) "-" ->
  delegations (effects (run self ctx st).1) = [MathBranch]
  /\ effects (run self ctx st).1 = [Delegate MathBranch; StateGet "calc_result"]
  /\ final_text (run self ctx st).1
     <> Some "I can only help with Math or Time requests."
  /\ exists result,
       final_text (run self ctx st).1
       = Some ("The calculated result is: " +:+ result).
Proof.
  intros Ht%str_in_false Hm%str_in_spec.
  rewrite run_math_arm; [| done | by rewrite Hm, !orb_true_r].
  cbn. repeat split; [| eauto]. intros [=].
Qed.

Lemma router_hyphen_is_math_witness :
  delegations (effects (run master (user_message "A well-known fact") ∅).1) = [MathBranch]
  /\ effects (run master (user_message "A well-known fact") ∅).1
     = [Delegate MathBranch; StateGet "calc_result"]
  /\ final_text (run master (user_message "A well-known fact") ∅).1
     <> Some "I can only help with Math or Time requests."
  /\ exists result,
       final_text (run master (user_message "A well-known fact") ∅).1
       = Some ("The calculated result is: " +:+ result).
Proof.
  apply (router_hyphen_is_math master (user_message "A well-known fact") ∅).
  - apply str_in_false. vm_compute. reflexivity.
  - apply str_in_spec. vm_compute. reflexivity.
Defined.

(** C2. When the lower-cased request text contains none of "time", "add",
    "subtract", "+", "-", the Router delegates to no branch, leaves the
    session state as it was and produces exactly one Event, whose text is
    "I can only help with Math or Time requests."; and when the user
    message is absent or empty the request text is the empty string. *)
Theorem router_no_match `{Runtime} (self : MasterOrchestrator)
    (ctx : InvocationContext) (st : gmap string Value) :
  ~ contains (lower (user_input ctx)) "time" ->
  ~ contains (lower (user_input ctx)) "add" ->
  ~ contains (lower (user_input ctx)) "subtract" ->
  ~ contains (lower (user_input ctx)) "+" ->
  ~ contains (lower (user_input ctx)) "-" ->
  run self ctx st =
    ({| session_state := st;
        yielded :=
          [ {| author := name self;
               content :=
                 Some {| role := Some "model";
                         parts := Some [ {| text := Some "I can only help with Math or Time requests." |} ] |} |} ];
        effects := [];
        final_text := Some "I can only help with Math or Time requests." |},
     Returned ())
  /\ (message_absent ctx -> user_input ctx = "").
Proof.
  intros Ht%str_in_false Ha%str_in_false Hs%str_in_false
    Hp%str_in_false Hm%str_in_false.
  split.
  - rewrite run_no_match_arm; [done | done |]. by rewrite Ha, Hs, Hp, Hm.
  - unfold message_absent, user_input.
    destruct (user_content ctx) as [c|]; [| done].
    destruct (parts c) as [[|p ps]|]; [done | | done].
    by intros [-> | ->].
Qed.

Lemma router_no_match_witness :
  run master {| user_content := None |} ∅ =
    ({| session_state := ∅;
        yielded :=
          [ {| author := "MasterOrchestrator";
               content :=
                 Some {| role := Some "model";
                         parts := Some [ {| text := Some "I can only help with Math or Time requests." |} ] |} |} ];
        effects := [];
        final_text := Some "I can only help with Math or Time requests." |},
     Returned ())
  /\ (message_absent {| user_content := None |} ->
      user_input {| user_content := None |} = "").
Proof.
  apply (router_no_match master {| user_content := None |} ∅);
    apply str_in_false; vm_compute; reflexivity.
Defined.

(** Equal lower-cased request texts give equal delegations. *)
Lemma same_text_same_delegations `{Runtime} (self1 self2 : MasterOrchestrator)
    (ctx1 ctx2 : InvocationContext) (st1 st2 : gmap string Value) :
  lower (user_input ctx1) = lower (user_input ctx2) ->
  delegations (effects (run self1 ctx1 st1).1)
  = delegations (effects (run self2 ctx2 st2).1).
Proof.
  intros Heq.
  destruct (run_cases ctx1) as [Ht | [[Ht Hm] | [Ht Hm]]].
  - rewrite (run_time_arm self1 ctx1) by done.
    by rewrite (run_time_arm self2 ctx2) by (by rewrite <- Heq).
  - rewrite (run_math_arm self1 ctx1) by done.
    by rewrite (run_math_arm self2 ctx2) by (by rewrite <- Heq).
  - rewrite (run_no_match_arm self1 ctx1) by done.
    by rewrite (run_no_match_arm self2 ctx2) by (by rewrite <- Heq).
Qed.

(** C5. The branch is a function of the lower-cased request text alone:
    two invocations whose request texts agree after lower-casing delegate
    to the same branch, whatever the two session states and branch agents
    are; and the Router touches the session state only after the choice:
    either it made no state access at all, or its first effect is the
    delegation, the branch started from the untouched initial state, and
    the one state read follows it. *)
Theorem routing_depends_on_text_only `{Runtime} (self1 self2 : MasterOrchestrator)
    (ctx1 ctx2 : InvocationContext) (st1 st2 : gmap string Value) :
  lower (user_input ctx1) = lower (user_input ctx2) ->
  delegations (effects (run self1 ctx1 st1).1)
  = delegations (effects (run self2 ctx2 st2).1)
  /\ (effects (run self1 ctx1 st1).1 = []
        /\ session_state (run self1 ctx1 st1).1 = st1
      \/ exists b key,
           effects (run self1 ctx1 st1).1 = [Delegate b; StateGet key]
           /\ session_state (run self1 ctx1 st1).1
              = run_state (branch_of self1 b ctx1 st1)).
Proof.
  intros Heq. split; [by apply same_text_same_delegations |].
  destruct (run_cases ctx1) as [Ht | [[Ht Hm] | [Ht Hm]]].
  - rewrite (run_time_arm self1 ctx1) by done.
    right; by exists TimeBranch, "time_result".
  - rewrite (run_math_arm self1 ctx1) by done.
    right; by exists MathBranch, "calc_result".
  - rewrite (run_no_match_arm self1 ctx1) by done. by left.
Qed.

Lemma routing_depends_on_text_only_witness :
  delegations (effects (run master (user_message "What is the TIME?") ∅).1)
  = delegations (effects (run silent_master (user_message "what IS the time?")
                            {[ "time_result" := "noon" ]}).1)
  /\ (effects (run master (user_message "What is the TIME?") ∅).1 = []
        /\ session_state (run master (user_message "What is the TIME?") ∅).1 = ∅
      \/ exists b key,
           effects (run master (user_message "What is the TIME?") ∅).1
           = [Delegate b; StateGet key]
           /\ session_state (run master (user_message "What is the TIME?") ∅).1
              = run_state (branch_of master b (user_message "What is the TIME?") ∅)).
Proof.
  apply (routing_depends_on_text_only master silent_master
           (user_message "What is the TIME?") (user_message "what IS the time?")
           ∅ {[ "time_result" := "noon" ]}).
  vm_compute. reflexivity.
Defined.

(** C9. Only the first part of the user message is read: two messages with
    the same first part and any other parts after it (and any roles) give
    the same request text and the same delegation. *)
Theorem routing_reads_first_part_only `{Runtime} (self : MasterOrchestrator)
    (p : Part) (rest1 rest2 : list Part) (role1 role2 : option string)
    (st1 st2 : gmap string Value) :
  let ctx1 := {| user_content := Some {| role := role1; parts := Some (p :: rest1) |} |} in
  let ctx2 := {| user_content := Some {| role := role2; parts := Some (p :: rest2) |} |} in
  user_input ctx1 = user_input ctx2
  /\ delegations (effects (run self ctx1 st1).1)
     = delegations (effects (run self ctx2 st2).1).
Proof.
  intros ctx1 ctx2.
  assert (user_input ctx1 = user_input ctx2) as Heq by reflexivity.
  split; [done |].
  apply same_text_same_delegations. by rewrite Heq.
Qed.

(** ** The Router: the final Event *)

(** *** Runs in which the branch may raise *)

Section RaisingRuns.
Context `{Runtime}.
Variables (self : MasterOrchestrator) (ends : BranchEnds).
Variables (ctx : InvocationContext) (st : gmap string Value).

(** On the time arm the run is the run with a returning branch, or stops
    in the delegation with the exception of the branch. *)
Lemma run_raising_time_arm :
  str_in "time" (lower (user_input ctx)) = true ->
  run_raising self ends ctx st =
    match ends TimeBranch ctx st with
    | RunReturns => run self ctx st
    | RunRaises e =>
        ({| session_state := run_state (time_branch self ctx st);
            yielded := run_events (time_branch self ctx st);
            effects := [Delegate TimeBranch];
            final_text := None |}, Raised (Propagated e))
    end.
Proof.
  intros Ht. unfold run_raising, _run_async_impl_raising, run, _run_async_impl.
  rewrite Ht.
  unfold mbind, gen_bind, delegate_raising, delegate. cbn.
  by destruct (ends TimeBranch ctx st).
Qed.

Lemma run_raising_math_arm :
  str_in "time" (lower (user_input ctx)) = false ->
  str_in "add" (lower (user_input ctx)) || str_in "subtract" (lower (user_input ctx))
    || str_in "+" (lower (user_input ctx)) || str_in "-" (lower (user_input ctx))
  = true ->
  run_raising self ends ctx st =
    match ends MathBranch ctx st with
    | RunReturns => run self ctx st
    | RunRaises e =>
        ({| session_state := run_state (math_branch self ctx st);
            yielded := run_events (math_branch self ctx st);
            effects := [Delegate MathBranch];
            final_text := None |}, Raised (Propagated e))
    end.
Proof.
  intros Ht Hm. unfold run_raising, _run_async_impl_raising, run, _run_async_impl.
  rewrite Ht, Hm.
  unfold mbind, gen_bind, delegate_raising, delegate. cbn.
  by destruct (ends MathBranch ctx st).
Qed.

Lemma run_raising_no_match_arm :
  str_in "time" (lower (user_input ctx)) = false ->
  str_in "add" (lower (user_input ctx)) || str_in "subtract" (lower (user_input ctx))
    || str_in "+" (lower (user_input ctx)) || str_in "-" (lower (user_input ctx))
  = false ->
  run_raising self ends ctx st = run self ctx st.
Proof.
  intros Ht Hm. unfold run_raising, _run_async_impl_raising, run, _run_async_impl.
  by rewrite Ht, Hm.
Qed.

(** How the branch ends has no part in which branch is chosen. *)
Lemma run_raising_delegations :
  delegations (effects (run_raising self ends ctx st).1)
  = delegations (effects (run self ctx st).1).
Proof.
  destruct (run_cases ctx) as [Ht | [[Ht Hm] | [Ht Hm]]].
  - rewrite run_raising_time_arm, run_time_arm by done.
    by destruct (ends TimeBranch ctx st).
  - rewrite run_raising_math_arm, run_math_arm by done.
    by destruct (ends MathBranch ctx st).
  - by rewrite run_raising_no_match_arm.
Qed.

(** When the selected branch returns, the run is the one of [run]. *)
Lemma run_raising_returns :
  selected_branch_returns self ends ctx st ->
  run_raising self ends ctx st = run self ctx st.
Proof.
  unfold selected_branch_returns. rewrite run_raising_delegations.
  destruct (run_cases ctx) as [Ht | [[Ht Hm] | [Ht Hm]]].
  - rewrite run_raising_time_arm, run_time_arm by done. cbn.
    intros Hret. by rewrite (Hret TimeBranch eq_refl).
  - rewrite run_raising_math_arm, run_math_arm by done. cbn.
    intros Hret. by rewrite (Hret MathBranch eq_refl).
  - intros _. by apply run_raising_no_match_arm.
Qed.

(** The run raises exactly the exception of the selected branch, and in no
    case an [UnboundLocalError]. *)
Lemma run_raising_outcome :
  (run_raising self ends ctx st).2 = Returned ()
  \/ exists b e,
       delegations (effects (run_raising self ends ctx st).1) = [b]
       /\ ends b ctx st = RunRaises e
       /\ (run_raising self ends ctx st).2 = Raised (Propagated e)
       /\ yielded (run_raising self ends ctx st).1 = run_events (branch_of self b ctx st)
       /\ final_text (run_raising self ends ctx st).1 = None.
Proof.
  destruct (run_cases ctx) as [Ht | [[Ht Hm] | [Ht Hm]]].
  - rewrite run_raising_time_arm by done.
    destruct (ends TimeBranch ctx st) as [|e] eqn:He.
    + left. by rewrite run_time_arm.
    + right. by exists TimeBranch, e.
  - rewrite run_raising_math_arm by done.
    destruct (ends MathBranch ctx st) as [|e] eqn:He.
    + left. by rewrite run_math_arm.
    + right. by exists MathBranch, e.
  - left. rewrite run_raising_no_match_arm, run_no_match_arm by done. done.
Qed.

End RaisingRuns.

(** C3. In every invocation in which the branch the Router delegates to,
    if there is one, returns, the Router's run returns and the sequence it
    produced is the Events of the delegated branch followed by exactly one
    more Event, authored with the Router's own name; that Event is the
    last of the sequence. *)
Theorem router_final_event_if_branch_returns `{Runtime} (self : MasterOrchestrator)
    (ends : BranchEnds) (ctx : InvocationContext) (st : gmap string Value) :
  selected_branch_returns self ends ctx st ->
  exists e : Event,
    author e = name self
    /\ yielded (run_raising self ends ctx st).1
       = delegated_events self ctx st
           (delegations (effects (run_raising self ends ctx st).1)) ++ [e]
    /\ last (yielded (run_raising self ends ctx st).1) = Some e
    /\ length (delegations (effects (run_raising self ends ctx st).1)) <= 1
    /\ (run_raising self ends ctx st).2 = Returned ().
Proof.
  intros Hret. rewrite (run_raising_returns _ _ _ _ Hret).
  destruct (run_cases ctx) as [Ht | [[Ht Hm] | [Ht Hm]]].
  - rewrite run_time_arm by done. cbn.
    eexists (text_event (name self) _). rewrite app_nil_r, last_snoc.
    repeat split. lia.
  - rewrite run_math_arm by done. cbn.
    eexists (text_event (name self) _). rewrite app_nil_r, last_snoc.
    repeat split. lia.
  - rewrite run_no_match_arm by done. cbn.
    eexists (text_event (name self) _). repeat split. lia.
Qed.

Lemma router_final_event_if_branch_returns_witness :
  exists e : Event,
    author e = name master
    /\ yielded (run_raising master math_branch_raises (user_message time_query) ∅).1
       = delegated_events master (user_message time_query) ∅
           (delegations
              (effects (run_raising master math_branch_raises
                          (user_message time_query) ∅).1)) ++ [e]
    /\ last (yielded (run_raising master math_branch_raises
                        (user_message time_query) ∅).1) = Some e
    /\ length (delegations
                 (effects (run_raising master math_branch_raises
                             (user_message time_query) ∅).1)) <= 1
    /\ (run_raising master math_branch_raises (user_message time_query) ∅).2
       = Returned ().
Proof.
  apply (router_final_event_if_branch_returns master math_branch_raises
           (user_message time_query) ∅).
  intros b. vm_compute. by intros [= <-].
Defined.

(** C3, as it was stated, fails when the branch raises: on the time query
    with a time branch that yields one Event and then raises, the Router's
    run raises that exception, its sequence holds the Event of the branch
    alone, and none of its Events is authored with the Router's name. *)
Lemma router_no_final_event_if_branch_raises :
  (run_raising master time_branch_raises (user_message time_query) ∅).2
  = Raised (Propagated "AuthenticationError")
  /\ yielded (run_raising master time_branch_raises (user_message time_query) ∅).1
     = [text_event "TimeWeatherAgent" "12:00:00"]
  /\ ~ (exists e : Event,
          author e = name master
          /\ e ∈ yielded (run_raising master time_branch_raises
                            (user_message time_query) ∅).1).
Proof.
  split; [by vm_compute |]. split; [by vm_compute |].
  intros (e & Hauthor & Hin).
  assert (yielded (run_raising master time_branch_raises
                     (user_message time_query) ∅).1
          = [text_event "TimeWeatherAgent" "12:00:00"]) as Hy by by vm_compute.
  rewrite Hy in Hin. apply list_elem_of_singleton in Hin as ->.
  by vm_compute in Hauthor.
Qed.

(** C4. When a branch was selected and its expected key ("time_result" for
    the time branch, "calc_result" for the math branch) is absent from the
    session state the branch left, the Router's run still returns, and the
    text of its final Event carries the placeholder: "The time is: Unknown
    Time", respectively "The calculated result is: Unknown Result". *)
Theorem router_missing_key_placeholder `{Runtime} (self : MasterOrchestrator)
    (ctx : InvocationContext) (st : gmap string Value) (b : Branch) :
  delegations (effects (run self ctx st).1) = [b] ->
  run_state (branch_of self b ctx st)
    !! (match b with TimeBranch => "time_result" | MathBranch => "calc_result" end)
  = None ->
  (run self ctx st).2 = Returned ()
  /\ session_state (run self ctx st).1 = run_state (branch_of self b ctx st)
  /\ last (yielded (run self ctx st).1)
     = Some {| author := name self;
               content :=
                 Some {| role := Some "model";
                         parts :=
                           Some [ {| text :=
                                       Some (match b with
                                             | TimeBranch => "The time is: Unknown Time"
                                             | MathBranch => "The calculated result is: Unknown Result"
                                             end) |} ] |} |}.
Proof.
  destruct (run_cases ctx) as [Ht | [[Ht Hm] | [Ht Hm]]].
  - rewrite run_time_arm by done. cbn. intros [= <-]. cbn. intros ->.
    repeat split. by rewrite last_snoc.
  - rewrite run_math_arm by done. cbn. intros [= <-]. cbn. intros ->.
    repeat split. by rewrite last_snoc.
  - rewrite run_no_match_arm by done. cbn. intros [=].
Qed.

Lemma router_missing_key_placeholder_witness :
  (run silent_master (user_message "TIME please") ∅).2 = Returned ()
  /\ session_state (run silent_master (user_message "TIME please") ∅).1
     = run_state (branch_of silent_master TimeBranch (user_message "TIME please") ∅)
  /\ last (yielded (run silent_master (user_message "TIME please") ∅).1)
     = Some {| author := "MasterOrchestrator";
               content :=
                 Some {| role := Some "model";
                         parts := Some [ {| text := Some "The time is: Unknown Time" |} ] |} |}.
Proof.
  apply (router_missing_key_placeholder silent_master
           (user_message "TIME please") ∅ TimeBranch).
  - vm_compute. reflexivity.
  - vm_compute. reflexivity.
Defined.

(** The three arms of the Router cover every input, so the local
    [final_text] is never read unbound: whatever the branches do, the run
    does not raise [UnboundLocalError]. *)
Lemma router_never_reads_unbound `{Runtime} (self : MasterOrchestrator)
    (ends : BranchEnds) (ctx : InvocationContext) (st : gmap string Value)
    (var : string) :
  (run_raising self ends ctx st).2 <> Raised (UnboundLocalError var).
Proof.
  destruct (run_raising_outcome self ends ctx st)
    as [-> | (b & e & _ & _ & -> & _)]; done.
Qed.

(** C10. The three arms of the Router cover every input: on each of them,
    when the branch the Router delegates to, if there is one, returns, the
    local [final_text] is bound when the final Event is built; the run
    returns, and its last Event has exactly one part, whose text is
    [final_text] and is not empty. *)
Theorem router_final_text_bound_if_branch_returns `{Runtime}
    (self : MasterOrchestrator) (ends : BranchEnds)
    (ctx : InvocationContext) (st : gmap string Value) :
  selected_branch_returns self ends ctx st ->
  exists t : string,
    final_text (run_raising self ends ctx st).1 = Some t
    /\ t <> ""
    /\ (run_raising self ends ctx st).2 = Returned ()
    /\ last (yielded (run_raising self ends ctx st).1)
       = Some {| author := name self;
                 content := Some {| role := Some "model";
                                    parts := Some [ {| text := Some t |} ] |} |}.
Proof.
  intros Hret. rewrite (run_raising_returns _ _ _ _ Hret).
  destruct (run_cases ctx) as [Ht | [[Ht Hm] | [Ht Hm]]].
  - rewrite run_time_arm by done. cbn. eexists. repeat split.
    + intros [=].
    + by rewrite last_snoc.
  - rewrite run_math_arm by done. cbn. eexists. repeat split.
    + intros [=].
    + by rewrite last_snoc.
  - rewrite run_no_match_arm by done. cbn. eexists. repeat split. intros [=].
Qed.

Lemma router_final_text_bound_if_branch_returns_witness :
  exists t : string,
    final_text (run_raising master time_branch_raises (user_message math_query) ∅).1
    = Some t
    /\ t <> ""
    /\ (run_raising master time_branch_raises (user_message math_query) ∅).2
       = Returned ()
    /\ last (yielded (run_raising master time_branch_raises
                        (user_message math_query) ∅).1)
       = Some {| author := name master;
                 content := Some {| role := Some "model";
                                    parts := Some [ {| text := Some t |} ] |} |}.
Proof.
  apply (router_final_text_bound_if_branch_returns master time_branch_raises
           (user_message math_query) ∅).
  intros b. vm_compute. by intros [= <-].
Defined.

(** C10, as it was stated, fails when the branch raises: on the math query
    with a math branch that raises, the run ends in the delegation with
    that exception, [final_text] is never bound and no Event with a text
    part of the Router is produced. *)
Lemma router_final_text_unbound_if_branch_raises :
  final_text (run_raising silent_master math_branch_raises
                (user_message math_query) ∅).1 = None
  /\ (run_raising silent_master math_branch_raises (user_message math_query) ∅).2
     = Raised (Propagated "RateLimitError")
  /\ yielded (run_raising silent_master math_branch_raises
                (user_message math_query) ∅).1 = []
  /\ ~ (exists t : string,
          final_text (run_raising silent_master math_branch_raises
                        (user_message math_query) ∅).1 = Some t
          /\ last (yielded (run_raising silent_master math_branch_raises
                              (user_message math_query) ∅).1)
             = Some {| author := name silent_master;
                       content := Some {| role := Some "model";
                                          parts := Some [ {| text := Some t |} ] |} |}).
Proof.
  split; [by vm_compute |]. split; [by vm_compute |]. split; [by vm_compute |].
  intros (t & Hbound & _). by vm_compute in Hbound.
Qed.

(** ** Runs of Leaf, Sequential and Parallel agents *)

Section Runs.
Context `{Runtime}.
Variable req : string.

Lemma terminal_no_step t st es t1 st1 :
  step req t st es t1 st1 -> ~ terminal t.
Proof.
  intros Hstep [-> | [who ->]]; inversion Hstep.
Qed.

Lemma steps_from_terminal t st evs t' st' :
  steps req t st evs t' st' -> terminal t -> t' = t /\ evs = [] /\ st' = st.
Proof.
  intros Hrun Hterm. destruct Hrun as [|t st es t1 st1 es' t2 st2 Hstep _]; [done |].
  by apply terminal_no_step in Hstep.
Qed.

Lemma steps_one t st es t1 st1 :
  step req t st es t1 st1 -> steps req t st es t1 st1.
Proof.
  intros Hstep. rewrite <- (app_nil_r es).
  eapply steps_step; [done | constructor].
Qed.

Lemma steps_silent t st t1 st1 es' t2 st2 :
  step req t st [] t1 st1 ->
  steps req t1 st1 es' t2 st2 ->
  steps req t st es' t2 st2.
Proof. intros Hstep Hrun. by apply (steps_step req t st [] t1 st1 es'). Qed.

Lemma steps_trans t st es t1 st1 es' t2 st2 :
  steps req t st es t1 st1 ->
  steps req t1 st1 es' t2 st2 ->
  steps req t st (es ++ es') t2 st2.
Proof.
  induction 1 as [|t st es0 ta sta es1 tb stb Hstep _ IH]; intros Hrun; [done |].
  rewrite <- app_assoc. eapply steps_step; [done | by apply IH].
Qed.

(** A Leaf run to its end: one capability call on the starting state, then
    the write and the single Event, or the failure with nothing written. *)
Lemma leaf_run n cap k st evs t st' :
  steps req (Start (Leaf n cap k)) st evs t st' ->
  terminal t ->
  (exists v, cap req st = Some v /\ t = Done /\ evs = [summary n v]
             /\ st' = write k v st)
  \/ (cap req st = None /\ t = Failed [n] /\ evs = [] /\ st' = st).
Proof.
  intros Hrun Hterm.
  inversion Hrun as [|? ? es t1 st1 es' ? ? Hstep Hrun1]; subst.
  { destruct Hterm as [? | [? ?]]; discriminate. }
  inversion Hstep; subst.
  inversion Hrun1 as [|? ? es2 t2 st2 es2' ? ? Hstep2 Hrun2]; subst.
  { destruct Hterm as [? | [? ?]]; discriminate. }
  inversion Hstep2; subst.
  - apply steps_from_terminal in Hrun2 as (-> & -> & ->); [| by left].
    left. eexists. by repeat split.
  - apply steps_from_terminal in Hrun2 as (-> & -> & ->); [| right; by eexists].
    right. by repeat split.
Qed.

(** The running child of a Sequential agent runs to its end first; the
    chain stops there when it failed and goes on with the children left
    when it is done. *)
Lemma seq_run_current cur rest st evs t st' :
  steps req (SeqRun cur rest) st evs t st' ->
  terminal t ->
  exists ev1 t1 st1,
    steps req cur st ev1 t1 st1 /\ terminal t1
    /\ ((exists who, t1 = Failed who /\ t = Failed who /\ evs = ev1 /\ st' = st1)
        \/ (t1 = Done /\ exists ev2,
              steps req (SeqRun Done rest) st1 ev2 t st' /\ evs = ev1 ++ ev2)).
Proof.
  intros Hrun Hterm.
  remember (SeqRun cur rest) as t0 eqn:Ht0.
  revert cur Ht0.
  induction Hrun as [t0 st|t0 st es ta sta es' t st' Hstep Hrun IH];
    intros cur ->.
  { destruct Hterm as [? | [? ?]]; discriminate. }
  inversion Hstep; subst.
  - eexists [], Done, _. repeat split; [constructor | by left |].
    right. split; [done |]. eexists. split; [| done].
    eapply steps_silent; [apply Hstep | done].
  - destruct (IH Hterm cur' eq_refl) as (ev1 & t1 & st1 & Hcur & Ht1 & Hcases).
    exists (es ++ ev1), t1, st1. repeat split; [by eapply steps_step | done |].
    destruct Hcases as [(who & -> & -> & -> & ->) | (-> & ev2 & Hrest & ->)].
    + left. by exists who.
    + right. split; [done |]. exists ev2. by rewrite app_assoc.
  - apply steps_from_terminal in Hrun as (-> & -> & ->); [| right; by eexists].
    eexists [], (Failed who), _. repeat split; [constructor | right; by eexists |].
    left. by exists who.
  - eexists [], Done, _. repeat split; [constructor | by left |].
    right. split; [done |]. eexists. split; [| done].
    eapply steps_silent; [apply Hstep | done].
Qed.

Lemma seq_run_next a rest st evs t st' :
  steps req (SeqRun Done (a :: rest)) st evs t st' ->
  terminal t ->
  steps req (SeqRun (Start a) rest) st evs t st'.
Proof.
  intros Hrun Hterm.
  inversion Hrun as [|? ? es t1 st1 es' ? ? Hstep Hrun1]; subst.
  { destruct Hterm as [? | [? ?]]; discriminate. }
  inversion Hstep; subst; [done |].
  match goal with Hs : step _ Done _ _ _ _ |- _ => inversion Hs end.
Qed.

Lemma seq_run_end st evs t st' :
  steps req (SeqRun Done []) st evs t st' ->
  terminal t ->
  t = Done /\ evs = [] /\ st' = st.
Proof.
  intros Hrun Hterm.
  inversion Hrun as [|? ? es t1 st1 es' ? ? Hstep Hrun1]; subst.
  { destruct Hterm as [? | [? ?]]; discriminate. }
  inversion Hstep; subst.
  - match goal with Hs : step _ Done _ _ _ _ |- _ => inversion Hs end.
  - by apply steps_from_terminal in Hrun1 as (-> & -> & ->); [| by left].
Qed.

Lemma seq_run_start n kids st evs t st' :
  steps req (Start (Sequential n kids)) st evs t st' ->
  terminal t ->
  steps req (SeqRun Done kids) st evs t st'.
Proof.
  intros Hrun Hterm.
  inversion Hrun as [|? ? es t1 st1 es' ? ? Hstep Hrun1]; subst.
  { destruct Hterm as [? | [? ?]]; discriminate. }
  by inversion Hstep; subst.
Qed.

(** *** Which keys a run writes *)

Lemma step_may_write t st es t1 st1 k :
  step req t st es t1 st1 -> may_write t1 k -> may_write t k.
Proof.
  induction 1 as
    [n cap ko st | n ko v st | n ko st | n kids st | a rest st
    | cur cur' rest st st' es Hstep IH | who rest st | st | n kids st
    | pre n cur cur' post st st' es Hstep IH | kids st Hall | kids st Hall Hfail];
    intros Hw; inversion Hw; subst.
  - constructor. simpl. set_solver.
  - match goal with Hd : may_write Done _ |- _ => inversion Hd end.
  - eapply may_write_start. simpl. apply list_elem_of_bind. eauto.
  - match goal with Hs : may_write (Start _) _ |- _ => inversion Hs; subst end.
    eapply may_write_seq_rest; [| done]. set_solver.
  - eapply may_write_seq_rest; [| done]. set_solver.
  - apply may_write_seq_current. auto.
  - by eapply may_write_seq_rest.
  - match goal with Hin : _ ∈ _ <$> _ |- _ =>
      apply list_elem_of_fmap in Hin as (a & -> & Hin) end.
    simpl in *.
    match goal with Hs : may_write (Start _) _ |- _ => inversion Hs; subst end.
    eapply may_write_start. simpl. apply list_elem_of_bind. eauto.
  - match goal with Hin : _ ∈ _ ++ _ :: _ |- _ =>
      apply elem_of_app in Hin as [Hin | Hin];
        [| apply elem_of_cons in Hin as [-> | Hin]] end.
    + eapply may_write_par; [| done]. set_solver.
    + apply (may_write_par _ (n, cur)); [set_solver | auto].
    + eapply may_write_par; [| done]. set_solver.
Qed.

Lemma step_frame t st es t1 st1 k :
  step req t st es t1 st1 -> ~ may_write t k -> st1 !! k = st !! k.
Proof.
  induction 1 as
    [n cap ko st | n ko v st | n ko st | n kids st | a rest st
    | cur cur' rest st st' es Hstep IH | who rest st | st | n kids st
    | pre n cur cur' post st st' es Hstep IH | kids st Hall | kids st Hall Hfail];
    intros Hw; try done.
  - destruct ko as [k'|]; [| done]. simpl.
    apply lookup_insert_ne. intros ->. apply Hw. constructor.
  - apply IH. intros Hc. apply Hw. by constructor.
  - apply IH. intros Hc. apply Hw.
    apply (may_write_par _ (n, cur)); [set_solver | done].
Qed.

Lemma step_keeps_keys t st es t1 st1 k :
  step req t st es t1 st1 -> is_Some (st !! k) -> is_Some (st1 !! k).
Proof.
  induction 1; try done.
  destruct k0 as [k'|]; [| done]. simpl. intros Hk.
  destruct (decide (k' = k)) as [->|Hne].
  - rewrite lookup_insert_eq. by eexists.
  - by rewrite lookup_insert_ne.
Qed.

Lemma steps_keep_keys t st evs t' st' k :
  steps req t st evs t' st' -> is_Some (st !! k) -> is_Some (st' !! k).
Proof.
  induction 1 as [|t st es t1 st1 es' t2 st2 Hstep _ IH]; [done |].
  intros Hk. apply IH. by eapply step_keeps_keys.
Qed.

Lemma step_owes t st es t1 st1 k :
  step req t st es t1 st1 -> owes t k -> owes t1 k \/ is_Some (st1 !! k).
Proof.
  induction 1 as
    [n cap ko st | n ko v st | n ko st | n kids st | a rest st
    | cur cur' rest st st' es Hstep IH | who rest st | st | n kids st
    | pre n cur cur' post st st' es Hstep IH | kids st Hall | kids st Hall Hfail];
    intros Ho; try (left; by constructor); inversion Ho; subst.
  - left. simpl in *. destruct ko as [k'|]; simpl in *.
    + match goal with Hin : _ ∈ [_] |- _ =>
        apply list_elem_of_singleton in Hin as -> end.
      constructor.
    + match goal with Hin : _ ∈ [] |- _ => by apply not_elem_of_nil in Hin end.
  - right. simpl. rewrite lookup_insert_eq. by eexists.
  - left. simpl in *.
    match goal with Hin : _ ∈ _ ≫= _ |- _ =>
      apply list_elem_of_bind in Hin as (a & Hk & Hin) end.
    by eapply owes_seq_rest.
  - match goal with Hd : owes Done _ |- _ => inversion Hd end.
  - left.
    match goal with Hin : _ ∈ _ :: _ |- _ =>
      apply elem_of_cons in Hin as [-> | Hin] end.
    + apply owes_seq_current. by constructor.
    + by eapply owes_seq_rest.
  - destruct IH as [Ho' | Hk]; [done | left; by constructor | by right].
  - left. by eapply owes_seq_rest.
  - match goal with Hd : owes Done _ |- _ => inversion Hd end.
  - set_solver.
  - left. simpl in *.
    match goal with Hin : _ ∈ _ ≫= _ |- _ =>
      apply list_elem_of_bind in Hin as (a & Hk & Hin) end.
    apply (owes_par _ (agent_name a, Start a)).
    + apply list_elem_of_fmap. eauto.
    + by constructor.
  - match goal with Hin : _ ∈ _ ++ _ :: _ |- _ =>
      apply elem_of_app in Hin as [Hin | Hin];
        [| apply elem_of_cons in Hin as [-> | Hin]] end.
    + left. eapply owes_par; [| done]. set_solver.
    + destruct IH as [Ho' | Hk]; [done | left | by right].
      apply (owes_par _ (n, cur')); [set_solver | done].
    + left. eapply owes_par; [| done]. set_solver.
  - match goal with Hin : _ ∈ kids |- _ =>
      rewrite Forall_forall in Hall; apply Hall in Hin as Hd end.
    match goal with Hk : owes _.2 _ |- _ => rewrite Hd in Hk; inversion Hk end.
Qed.

(** A run that ends in [Done] has written every key it owed. *)
Lemma steps_owes t st evs st' k :
  steps req t st evs Done st' -> owes t k -> is_Some (st' !! k).
Proof.
  remember Done as t' eqn:Ht'.
  induction 1 as [|t st es t1 st1 es' t2 st2 Hstep Hrun IH]; intros Ho; subst.
  - inversion Ho.
  - destruct (step_owes _ _ _ _ _ k Hstep Ho) as [Ho1 | Hk]; [by apply IH |].
    by eapply steps_keep_keys.
Qed.

End Runs.

(** ** Parallel groups *)

Section ParallelRuns.
Context `{Runtime}.
Variable req : string.

Lemma par_run_start n kids st evs t st' :
  steps req (Start (Parallel n kids)) st evs t st' ->
  terminal t ->
  steps req (ParRun ((fun a => (agent_name a, Start a)) <$> kids)) st evs t st'.
Proof.
  intros Hrun Hterm.
  inversion Hrun as [|? ? es t1 st1 es' ? ? Hstep Hrun1]; subst.
  { destruct Hterm as [? | [? ?]]; discriminate. }
  by inversion Hstep; subst.
Qed.

(** A group ends by one last step of its own, taken when each child has
    reached its end; the children keep their names and their order. *)
Lemma par_run_end kids st evs t st' :
  steps req (ParRun kids) st evs t st' ->
  terminal t ->
  exists kids',
    steps req (ParRun kids) st evs (ParRun kids') st'
    /\ kids'.*1 = kids.*1
    /\ Forall (fun kid => terminal kid.2) kids'
    /\ (t = Done -> Forall (fun kid => kid.2 = Done) kids')
    /\ step req (ParRun kids') st' [] t st'.
Proof.
  intros Hrun Hterm.
  remember (ParRun kids) as t0 eqn:Ht0.
  revert kids Ht0.
  induction Hrun as [t0 st|t0 st es ta sta es' t st' Hstep Hrun IH];
    intros kids ->.
  { destruct Hterm as [? | [? ?]]; discriminate. }
  inversion Hstep; subst.
  - destruct (IH Hterm _ eq_refl) as (kids' & Hrun' & Hnames & Hall & Hdone & Hlast).
    exists kids'. repeat split; try done.
    + by eapply steps_step.
    + rewrite Hnames, !fmap_app. done.
  - apply steps_from_terminal in Hrun as (-> & -> & ->); [| by left].
    exists kids. repeat split; try done.
    + constructor.
    + eapply Forall_impl; [done |]. intros kid ->. by left.
  - apply steps_from_terminal in Hrun as (-> & -> & ->); [| right; by eexists].
    exists kids. repeat split; try done. constructor.
Qed.

Lemma lookup_middle_ne {A} (pre post : list A) (x y : A) (j : nat) :
  j <> length pre -> (pre ++ x :: post) !! j = (pre ++ y :: post) !! j.
Proof.
  intros Hj. destruct (decide (j < length pre)) as [Hlt | Hge].
  - by rewrite !lookup_app_l.
  - rewrite !lookup_app_r by lia.
    destruct (j - length pre) as [|d] eqn:Hd; [lia | done].
Qed.

(** *** One Leaf of a group whose other children leave its key alone *)

Variables (m : string) (cap : Capability) (k : string) (i : nat).

#[local] Abbreviation progress := (leaf_progress req m cap k).
#[local] Abbreviation inv := (group_inv req m cap k i).

Lemma leaf_progress_step t st es t1 st1 :
  step req t st es t1 st1 -> progress t st -> progress t1 st1.
Proof.
  intros Hstep [-> | [[s ->] | [[-> _] | [who ->]]]]; inversion Hstep; subst.
  - right; left. by eexists.
  - right; right; left. split; [done |].
    match goal with Hc : Some _ = cap req s |- _ => rename Hc into Hcap end.
    exists s, v. split; [done |]. simpl. by rewrite lookup_insert_eq.
  - right; right; right. by eexists.
Qed.

Lemma leaf_progress_frame t st st1 :
  st1 !! k = st !! k -> progress t st -> progress t st1.
Proof.
  intros Heq [-> | [[s ->] | [[-> (s & v & Hcap & Hk)] | [who ->]]]].
  - by left.
  - right; left. by eexists.
  - right; right; left. split; [done |]. exists s, v. by rewrite Heq.
  - right; right; right. by eexists.
Qed.

Lemma group_inv_step kids st es kids' st' :
  step req (ParRun kids) st es (ParRun kids') st' ->
  inv kids st -> inv kids' st'.
Proof.
  intros Hstep [(kid & Hi & Hprog) Hothers].
  inversion Hstep as
    [| | | | | | | | | pre n cur cur' post ? ? ? Hcur | |]; subst.
  destruct (decide (i = length pre)) as [Hpos | Hpos].
  - rewrite Hpos, list_lookup_middle in Hi by done. injection Hi as <-.
    split.
    + exists (n, cur'). rewrite Hpos, list_lookup_middle by done.
      split; [done |]. by eapply leaf_progress_step.
    + intros j kid Hj.
      rewrite <- (lookup_middle_ne pre post (n, cur) (n, cur') j) by lia.
      by apply (Hothers j kid).
  - assert (~ may_write cur k) as Hcurk.
    { apply (Hothers (length pre) (n, cur)); [done |].
      by apply list_lookup_middle. }
    split.
    + exists kid. rewrite <- (lookup_middle_ne pre post (n, cur) (n, cur') i) by done.
      split; [done |]. eapply leaf_progress_frame; [| done].
      by eapply step_frame.
    + intros j kid' Hj Hlook. destruct (decide (j = length pre)) as [-> | Hjp].
      * rewrite list_lookup_middle in Hlook by done. injection Hlook as <-.
        simpl. intros Hw. apply Hcurk. by eapply step_may_write.
      * rewrite <- (lookup_middle_ne pre post (n, cur) (n, cur') j) in Hlook by done.
        by apply (Hothers j kid').
Qed.

Lemma group_inv_steps kids st evs kids' st' :
  steps req (ParRun kids) st evs (ParRun kids') st' ->
  inv kids st -> inv kids' st'.
Proof.
  intros Hrun.
  remember (ParRun kids) as t0 eqn:Ht0.
  remember (ParRun kids') as t' eqn:Ht'.
  revert kids Ht0.
  induction Hrun as [t0 st|t0 st es ta sta es' t st' Hstep Hrun IH];
    intros kids -> Hinv; subst.
  { by injection Ht' as <-. }
  destruct ta as [a | n ko r | cur rest | kids1 | | who].
  - inversion Hstep.
  - inversion Hstep.
  - inversion Hstep.
  - apply (IH eq_refl kids1 eq_refl). by eapply group_inv_step.
  - apply steps_from_terminal in Hrun as ([=] & _); by left.
  - apply steps_from_terminal in Hrun as ([=] & _). right; by eexists.
Qed.

End ParallelRuns.

(** ** Every agent runs to an end *)

Section Completion.
Context `{Runtime}.
Variable req : string.

Lemma seq_run_lift cur rest st evs cur' st' :
  steps req cur st evs cur' st' ->
  steps req (SeqRun cur rest) st evs (SeqRun cur' rest) st'.
Proof.
  induction 1 as [|t st es t1 st1 es' t2 st2 Hstep _ IH]; [constructor |].
  eapply steps_step; [by constructor | done].
Qed.

Lemma par_run_lift pre n post cur st evs cur' st' :
  steps req cur st evs cur' st' ->
  steps req (ParRun (pre ++ (n, cur) :: post)) st evs
    (ParRun (pre ++ (n, cur') :: post)) st'.
Proof.
  induction 1 as [|t st es t1 st1 es' t2 st2 Hstep _ IH]; [constructor |].
  eapply steps_step; [by constructor | done].
Qed.

Lemma no_failures_all_done (kids : list (string * Task)) :
  Forall (fun kid => terminal kid.2) kids ->
  failures kids = [] ->
  Forall (fun kid => kid.2 = Done) kids.
Proof.
  induction 1 as [|[n t] kids [Hd | [who Hf]] _ IH]; [constructor | |];
    simpl in *; subst; unfold failures; simpl; [| done].
  intros Hnil. constructor; [done | by apply IH].
Qed.

#[local] Abbreviation completes := (completes req).

Lemma chain_completes rest :
  Forall completes rest ->
  forall st, exists evs t st',
    steps req (SeqRun Done rest) st evs t st' /\ terminal t.
Proof.
  induction 1 as [|a rest Ha _ IH]; intros st.
  - exists [], Done, st. split; [apply steps_one, step_seq_done | by left].
  - destruct (Ha st) as (evA & tA & stA & HA & [-> | [who ->]]).
    + destruct (IH stA) as (evs & t & st' & Hrest & Ht).
      exists (evA ++ evs), t, st'. split; [| done].
      eapply steps_silent; [apply step_seq_next |].
      eapply steps_trans; [by apply seq_run_lift | done].
    + exists evA, (Failed who), stA. split; [| right; by eexists].
      eapply steps_silent; [apply step_seq_next |].
      rewrite <- (app_nil_r evA).
      eapply steps_trans; [by apply seq_run_lift |].
      apply steps_one, step_seq_failure.
Qed.

Lemma group_completes todo :
  Forall completes todo ->
  forall finished st,
    Forall (fun kid => terminal kid.2) finished ->
    exists evs kids' st',
      steps req
        (ParRun (finished ++ ((fun a => (agent_name a, Start a)) <$> todo)))
        st evs (ParRun kids') st'
      /\ Forall (fun kid => terminal kid.2) kids'.
Proof.
  induction 1 as [|a todo Ha _ IH]; intros finished st Hfin.
  - exists [], finished, st. simpl. rewrite app_nil_r. split; [constructor | done].
  - destruct (Ha st) as (evA & tA & stA & HA & HtA).
    destruct (IH (finished ++ [(agent_name a, tA)]) stA)
      as (evs & kids' & st' & Hrest & Hall).
    { apply Forall_app. split; [done |]. by apply Forall_singleton. }
    exists (evA ++ evs), kids', st'. split; [| done].
    eapply steps_trans; [by apply par_run_lift |].
    by rewrite <- app_assoc in Hrest.
Qed.

(** From every state every agent has a run that reaches [Done] or
    [Failed]. *)
Lemma agent_completes (a : Agent) : completes a.
Proof.
  induction a as [n cap k | n kids IH | n kids IH] using Agent_children_ind;
    intros st.
  - destruct (cap req st) as [v|] eqn:Hcap.
    + exists [summary n v], Done, (write k v st). split; [| by left].
      eapply steps_silent; [apply step_leaf_invoke |]. rewrite Hcap.
      apply steps_one, step_leaf_result.
    + exists [], (Failed [n]), st. split; [| right; by eexists].
      eapply steps_silent; [apply step_leaf_invoke |]. rewrite Hcap.
      apply steps_one, step_leaf_failure.
  - destruct (chain_completes kids IH st) as (evs & t & st' & Hrun & Ht).
    exists evs, t, st'. split; [| done].
    eapply steps_silent; [apply step_seq_start | done].
  - destruct (group_completes kids IH [] st) as (evs & kids' & st' & Hrun & Hall);
      [constructor |].
    simpl in Hrun.
    destruct (failures kids') as [|f fs] eqn:Hfail.
    + exists evs, Done, st'. split; [| by left].
      eapply steps_silent; [apply step_par_start |].
      rewrite <- (app_nil_r evs). eapply steps_trans; [done |].
      apply steps_one, step_par_done. by apply no_failures_all_done.
    + exists evs, (Failed (failures kids')), st'. split; [| right; by eexists].
      eapply steps_silent; [apply step_par_start |].
      rewrite <- (app_nil_r evs). eapply steps_trans; [done |].
      apply steps_one, step_par_failure; [done | by rewrite Hfail].
Qed.

End Completion.

(** ** Concrete runs of the agents of [Workflow-3.py] *)

(** The parallel stage with the CONS Leaf delivering first ... *)
Lemma parallel_stage_cons_first (req : string) :
  steps req (Start (parallel_stage (fixed_answer "tasty") (fixed_answer "greasy"))) ∅
    [text_event "CONSAgent" "greasy"; text_event "PROSAgent" "tasty"]
    Done (<["PROS" := "tasty"]> (<["CONS" := "greasy"]> ∅)).
Proof.
  eapply steps_silent; [apply step_par_start |]. simpl.
  eapply steps_silent; [apply (step_par_child _ []); apply step_leaf_invoke |].
  eapply steps_silent; [apply (step_par_child _ [_]); apply step_leaf_invoke |].
  eapply (steps_step _ _ _ [_]).
  { apply (step_par_child _ [_]).
    exact (@step_leaf_result ascii_runtime req "CONSAgent" (Some "CONS") "greasy" ∅). }
  eapply (steps_step _ _ _ [_]).
  { apply (step_par_child _ []).
    exact (@step_leaf_result ascii_runtime req "PROSAgent" (Some "PROS") "tasty" _). }
  apply steps_one. apply step_par_done. by repeat constructor.
Qed.

(** ... and with the PROS Leaf delivering first: both orders are runs. *)
Lemma parallel_stage_pros_first (req : string) :
  steps req (Start (parallel_stage (fixed_answer "tasty") (fixed_answer "greasy"))) ∅
    [text_event "PROSAgent" "tasty"; text_event "CONSAgent" "greasy"]
    Done (<["CONS" := "greasy"]> (<["PROS" := "tasty"]> ∅)).
Proof.
  eapply steps_silent; [apply step_par_start |]. simpl.
  eapply steps_silent; [apply (step_par_child _ []); apply step_leaf_invoke |].
  eapply (steps_step _ _ _ [_]).
  { apply (step_par_child _ []).
    exact (@step_leaf_result ascii_runtime req "PROSAgent" (Some "PROS") "tasty" ∅). }
  eapply steps_silent; [apply (step_par_child _ [_]); apply step_leaf_invoke |].
  eapply (steps_step _ _ _ [_]).
  { apply (step_par_child _ [_]).
    exact (@step_leaf_result ascii_runtime req "CONSAgent" (Some "CONS") "greasy" _). }
  apply steps_one. apply step_par_done. by repeat constructor.
Qed.

Lemma orchestrator_run (req : string) :
  steps req
    (Start (orchestrator (fixed_answer "tasty") (fixed_answer "greasy") synthesize)) ∅
    [text_event "CONSAgent" "greasy"; text_event "PROSAgent" "tasty";
     text_event "FinalSynthesizer" "tasty / greasy"]
    Done (<["PROS" := "tasty"]> (<["CONS" := "greasy"]> ∅)).
Proof.
  eapply steps_silent; [apply step_seq_start |].
  eapply steps_silent; [apply step_seq_next |].
  eapply (steps_trans _ _ _ [_; _] _ _ [_]);
    [apply seq_run_lift, parallel_stage_cons_first |].
  eapply steps_silent; [apply step_seq_next |].
  eapply steps_silent; [apply step_seq_child, step_leaf_invoke |].
  eapply (steps_step _ _ _ [_]).
  { apply step_seq_child.
    exact (@step_leaf_result ascii_runtime req "FinalSynthesizer" None
             "tasty / greasy" _). }
  apply steps_one. apply step_seq_done.
Qed.

(** ** Sequential and Parallel composition *)

(** A chain of two: the first child runs to its end, and when it is done the
    second runs from the state the first left. *)
Lemma seq_pair_run `{Runtime} (req n : string) (A B : Agent)
    (st : gmap string Value) (evs : list Event) (t : Task)
    (st' : gmap string Value) :
  steps req (Start (Sequential n [A; B])) st evs t st' ->
  terminal t ->
  exists evA tA stA,
    steps req (Start A) st evA tA stA
    /\ terminal tA
    /\ ((exists who, tA = Failed who /\ t = Failed who /\ evs = evA /\ st' = stA)
        \/ (tA = Done
            /\ exists evB,
                 steps req (Start B) stA evB t st' /\ evs = evA ++ evB)).
Proof.
  intros Hrun Hterm.
  apply seq_run_start in Hrun; [| done].
  apply seq_run_next in Hrun; [| done].
  apply seq_run_current in Hrun as (evA & tA & stA & HA & HtA & Hcases); [| done].
  exists evA, tA, stA. split; [done |]. split; [done |].
  destruct Hcases as [(who & -> & -> & -> & ->) | (-> & ev2 & Hrest & ->)].
  { left. by exists who. }
  right. split; [done |].
  apply seq_run_next in Hrest; [| done].
  apply seq_run_current in Hrest as (evB & tB & stB & HB & HtB & Hcases); [| done].
  destruct Hcases as [(who & -> & -> & -> & ->) | (-> & ev3 & Hend & ->)].
  { by exists evB. }
  apply seq_run_end in Hend as (-> & -> & ->); [| done].
  exists evB. by rewrite app_nil_r.
Qed.

(** [Workflow-1.py]: a run of the travel chain that ends in [Done] is the
    country Leaf, then the city Leaf called on the state that already holds
    the country recommendations. *)
Lemma orchestrator_agent_run `{Runtime} (req : string) (country city : Capability)
    (st : gmap string Value) (evs : list Event) (st' : gmap string Value) :
  steps req (Start (orchestrator_agent country city)) st evs Done st' ->
  exists v1 v2,
    country req st = Some v1
    /\ city req (<["country_recommendations" := v1]> st) = Some v2
    /\ evs = [summary "CountryAgent" v1; summary "CityAgent" v2]
    /\ st' = <["city_recommendations" := v2]> (<["country_recommendations" := v1]> st).
Proof.
  intros Hrun.
  apply seq_pair_run in Hrun as (evA & tA & stA & HA & HtA & Hcases); [| by left].
  destruct Hcases as [(who & _ & [=] & _) | (-> & evB & HB & ->)].
  apply leaf_run in HA as [(v1 & Hc1 & _ & -> & ->) | (_ & [=] & _)]; [| by left].
  apply leaf_run in HB as [(v2 & Hc2 & _ & -> & ->) | (_ & [=] & _)]; [| by left].
  by exists v1, v2.
Qed.

(** [Workflow-3.py]: in a run of the orchestrator that ends in [Done] the
    synthesizer is called last, on a state that holds both "PROS" and
    "CONS". *)
Lemma orchestrator_final_reads_assessments `{Runtime} (req : string)
    (pros cons final : Capability)
    (st : gmap string Value) (evs : list Event) (st' : gmap string Value) :
  steps req (Start (orchestrator pros cons final)) st evs Done st' ->
  exists evP v,
    is_Some (st' !! "PROS") /\ is_Some (st' !! "CONS")
    /\ final req st' = Some v
    /\ evs = evP ++ [summary "FinalSynthesizer" v].
Proof.
  intros Hrun.
  apply seq_pair_run in Hrun as (evP & tA & stA & HA & HtA & Hcases); [| by left].
  destruct Hcases as [(who & _ & [=] & _) | (-> & evB & HB & ->)].
  apply leaf_run in HB as [(v & Hc & _ & -> & ->) | (_ & [=] & _)]; [| by left].
  exists evP, v. simpl. repeat split; try done.
  - eapply steps_owes; [done |]. constructor. simpl. set_solver.
  - eapply steps_owes; [done |]. constructor. simpl. set_solver.
Qed.

(** C6. In every run to its end of a Sequential agent with children
    [A; B], first A runs to its end; if A failed the chain stops there and
    B never starts; otherwise every key A writes is in the state A leaves,
    B runs from exactly that state (a Leaf B makes its capability call on
    it), and the Events of the chain are the Events of A followed by the
    Events of B. *)
Theorem sequential_order_and_state `{Runtime} (req n : string) (A B : Agent)
    (st : gmap string Value) (evs : list Event) (t : Task)
    (st' : gmap string Value) :
  steps req (Start (Sequential n [A; B])) st evs t st' ->
  terminal t ->
  exists evA tA stA,
    steps req (Start A) st evA tA stA
    /\ terminal tA
    /\ ((exists who, tA = Failed who /\ t = Failed who /\ evs = evA /\ st' = stA)
        \/ (tA = Done
            /\ (forall k, k ∈ output_keys A -> is_Some (stA !! k))
            /\ exists evB,
                 steps req (Start B) stA evB t st'
                 /\ evs = evA ++ evB
                 /\ forall m cap ko,
                      B = Leaf m cap ko ->
                      (exists v, cap req stA = Some v /\ t = Done
                                 /\ evB = [summary m v] /\ st' = write ko v stA)
                      \/ (cap req stA = None /\ t = Failed [m]
                          /\ evB = [] /\ st' = stA))).
Proof.
  intros Hrun Hterm.
  apply seq_pair_run in Hrun as (evA & tA & stA & HA & HtA & Hcases); [| done].
  exists evA, tA, stA. split; [done |]. split; [done |].
  destruct Hcases as [Hfail | (-> & evB & HB & ->)]; [by left | right].
  split; [done |]. split.
  { intros k Hk. eapply steps_owes; [done |]. by constructor. }
  exists evB. split; [done |]. split; [done |].
  intros m cap ko ->. by apply leaf_run in HB.
Qed.

Lemma sequential_order_and_state_witness :
  exists evA tA stA,
    steps "Should i eat pizza on a regular basis?"
      (Start (parallel_stage (fixed_answer "tasty") (fixed_answer "greasy")))
      ∅ evA tA stA
    /\ terminal tA
    /\ ((exists who,
           tA = Failed who /\ @Done ascii_runtime = Failed who
           /\ [text_event "CONSAgent" "greasy"; text_event "PROSAgent" "tasty";
               text_event "FinalSynthesizer" "tasty / greasy"] = evA
           /\ <["PROS" := "tasty"]> (<["CONS" := "greasy"]> ∅) = stA)
        \/ (tA = Done
            /\ (forall k,
                  k ∈ output_keys (parallel_stage (fixed_answer "tasty") (fixed_answer "greasy")) ->
                  is_Some (stA !! k))
            /\ exists evB,
                 steps "Should i eat pizza on a regular basis?"
                   (Start (final_agent synthesize)) stA evB Done
                   (<["PROS" := "tasty"]> (<["CONS" := "greasy"]> ∅))
                 /\ [text_event "CONSAgent" "greasy"; text_event "PROSAgent" "tasty";
                     text_event "FinalSynthesizer" "tasty / greasy"] = evA ++ evB
                 /\ forall m cap ko,
                      final_agent synthesize = Leaf m cap ko ->
                      (exists v,
                         cap "Should i eat pizza on a regular basis?" stA = Some v
                         /\ @Done ascii_runtime = Done
                         /\ evB = [summary m v]
                         /\ <["PROS" := "tasty"]> (<["CONS" := "greasy"]> ∅)
                            = write ko v stA)
                      \/ (cap "Should i eat pizza on a regular basis?" stA = None
                          /\ @Done ascii_runtime = Failed [m]
                          /\ evB = []
                          /\ <["PROS" := "tasty"]> (<["CONS" := "greasy"]> ∅) = stA))).
Proof.
  apply (sequential_order_and_state "Should i eat pizza on a regular basis?"
           "Orchestrator" _ _ ∅ _ Done _).
  - apply orchestrator_run.
  - by left.
Defined.

(** C7. Take a Parallel agent whose children write disjoint state keys and
    any run of it to its end, whatever the order in which the children
    moved.  The group took its last step from a configuration in which
    every child had reached its end, and the key of every Leaf child that
    is done holds the result of that Leaf's own capability call.  When the
    run ends in [Done], every child is done and every key of every child
    is present in the final state. *)
Theorem parallel_disjoint_writers `{Runtime} (req n : string) (kids : list Agent)
    (st : gmap string Value) (evs : list Event) (t : Task)
    (st' : gmap string Value) :
  (forall i j a b k,
     i <> j -> kids !! i = Some a -> kids !! j = Some b ->
     k ∈ output_keys a -> k ∉ output_keys b) ->
  steps req (Start (Parallel n kids)) st evs t st' ->
  terminal t ->
  exists end_kids,
    steps req (Start (Parallel n kids)) st evs (ParRun end_kids) st'
    /\ end_kids.*1 = agent_name <$> kids
    /\ Forall (fun kid => terminal kid.2) end_kids
    /\ step req (ParRun end_kids) st' [] t st'
    /\ (forall i m cap k,
          kids !! i = Some (Leaf m cap (Some k)) ->
          end_kids !! i = Some (m, Done) ->
          exists s v, cap req s = Some v /\ st' !! k = Some v)
    /\ (t = Done ->
        Forall (fun kid => kid.2 = Done) end_kids
        /\ (forall a k, a ∈ kids -> k ∈ output_keys a -> is_Some (st' !! k))
        /\ (forall m cap k,
              Leaf m cap (Some k) ∈ kids ->
              exists s v, cap req s = Some v /\ st' !! k = Some v)).
Proof.
  intros Hdisj Hrun Hterm.
  apply par_run_start in Hrun as Hpar; [| done].
  apply par_run_end in Hpar as (end_kids & Hgroup & Hnames & Hall & Hdone & Hlast);
    [| done].
  assert (forall i m cap k,
            kids !! i = Some (Leaf m cap (Some k)) ->
            exists kid, end_kids !! i = Some kid
                        /\ leaf_progress req m cap k kid.2 st') as Hleaf.
  { intros i m cap k Hi.
    assert (group_inv req m cap k i end_kids st') as [Hprog _]; [| done].
    eapply group_inv_steps; [done |]. split.
    - exists (m, Start (Leaf m cap (Some k))).
      rewrite list_lookup_fmap, Hi. split; [done | by left].
    - intros j kid Hj Hlook Hw.
      rewrite list_lookup_fmap in Hlook.
      destruct (kids !! j) as [b|] eqn:Hb; [| done].
      injection Hlook as <-. simpl in Hw. inversion Hw; subst.
      eapply (Hdisj i j); [done | done | done | | done].
      simpl. by apply list_elem_of_singleton. }
  exists end_kids. split.
  { eapply steps_silent; [apply step_par_start | done]. }
  split. { rewrite Hnames, <- list_fmap_compose. done. }
  split; [done |]. split; [done |]. split.
  - intros i m cap k Hi Hend.
    destruct (Hleaf i m cap k Hi) as (kid & Hkid & Hprog).
    rewrite Hend in Hkid. injection Hkid as <-.
    by destruct Hprog as [[=] | [[s [=]] | [[_ Hres] | [who [=]]]]].
  - intros ->. specialize (Hdone eq_refl). split; [done |]. split.
    + intros a k Ha Hk. eapply steps_owes; [done |].
      constructor. simpl. apply list_elem_of_bind. eauto.
    + intros m cap k [i Hi]%list_elem_of_lookup.
      destruct (Hleaf i m cap k Hi) as (kid & Hkid & Hprog).
      rewrite Forall_forall in Hdone.
      assert (kid.2 = Done) as Hd.
      { apply Hdone. apply list_elem_of_lookup. eauto. }
      rewrite Hd in Hprog.
      by destruct Hprog as [[=] | [[s [=]] | [[_ Hres] | [who [=]]]]].
Qed.

Lemma parallel_disjoint_writers_witness :
  exists end_kids,
    steps "Should i eat pizza on a regular basis?"
      (Start (Parallel "ParallelStage"
                [PROS_Agent (fixed_answer "tasty"); CONS_Agent (fixed_answer "greasy")]))
      ∅ [text_event "CONSAgent" "greasy"; text_event "PROSAgent" "tasty"]
      (ParRun end_kids) (<["PROS" := "tasty"]> (<["CONS" := "greasy"]> ∅))
    /\ end_kids.*1
       = agent_name <$> [PROS_Agent (fixed_answer "tasty"); CONS_Agent (fixed_answer "greasy")]
    /\ Forall (fun kid => terminal kid.2) end_kids
    /\ step "Should i eat pizza on a regular basis?" (ParRun end_kids)
         (<["PROS" := "tasty"]> (<["CONS" := "greasy"]> ∅)) [] Done
         (<["PROS" := "tasty"]> (<["CONS" := "greasy"]> ∅))
    /\ (forall i m cap k,
          [PROS_Agent (fixed_answer "tasty"); CONS_Agent (fixed_answer "greasy")] !! i
          = Some (Leaf m cap (Some k)) ->
          end_kids !! i = Some (m, Done) ->
          exists s v,
            cap "Should i eat pizza on a regular basis?" s = Some v
            /\ (<["PROS" := "tasty"]> (<["CONS" := "greasy"]> ∅) : gmap string string) !! k
               = Some v)
    /\ (@Done ascii_runtime = Done ->
        Forall (fun kid => kid.2 = Done) end_kids
        /\ (forall a k,
              a ∈ [PROS_Agent (fixed_answer "tasty"); CONS_Agent (fixed_answer "greasy")] ->
              k ∈ output_keys a ->
              is_Some ((<["PROS" := "tasty"]> (<["CONS" := "greasy"]> ∅)
                        : gmap string string) !! k))
        /\ (forall m cap k,
              Leaf m cap (Some k)
                ∈ [PROS_Agent (fixed_answer "tasty"); CONS_Agent (fixed_answer "greasy")] ->
              exists s v,
                cap "Should i eat pizza on a regular basis?" s = Some v
                /\ (<["PROS" := "tasty"]> (<["CONS" := "greasy"]> ∅)
                    : gmap string string) !! k = Some v)).
Proof.
  apply (parallel_disjoint_writers "Should i eat pizza on a regular basis?"
           "ParallelStage"
           [PROS_Agent (fixed_answer "tasty"); CONS_Agent (fixed_answer "greasy")]).
  - intros [|[|i]] [|[|j]] a b k Hij Ha Hb; try done; simpl in *.
    + injection Ha as <-. injection Hb as <-. simpl.
      intros ->%list_elem_of_singleton [=]%list_elem_of_singleton.
    + injection Ha as <-. injection Hb as <-. simpl.
      intros ->%list_elem_of_singleton [=]%list_elem_of_singleton.
  - apply parallel_stage_cons_first.
  - by left.
Defined.

(** * Further properties of the Router *)

(** X1. The routing table, in both directions: the time branch is taken
    exactly when the lower-cased text contains "time", the math branch
    exactly when it does not but contains "add", "subtract", "+" or "-",
    and no branch exactly when it contains none of the five. *)
Theorem routing_table `{Runtime} (self : MasterOrchestrator)
    (ctx : InvocationContext) (st : gmap string Value) :
  (delegations (effects (run self ctx st).1) = [TimeBranch]
     <-> contains (lower (user_input ctx)) "time")
  /\ (delegations (effects (run self ctx st).1) = [MathBranch]
        <-> ~ contains (lower (user_input ctx)) "time"
            /\ (contains (lower (user_input ctx)) "add"
                \/ contains (lower (user_input ctx)) "subtract"
                \/ contains (lower (user_input ctx)) "+"
                \/ contains (lower (user_input ctx)) "-"))
  /\ (delegations (effects (run self ctx st).1) = []
        <-> ~ contains (lower (user_input ctx)) "time"
            /\ ~ contains (lower (user_input ctx)) "add"
            /\ ~ contains (lower (user_input ctx)) "subtract"
            /\ ~ contains (lower (user_input ctx)) "+"
            /\ ~ contains (lower (user_input ctx)) "-").
Proof.
  rewrite <- !str_in_false, <- !str_in_spec.
  destruct (run_cases ctx) as [Ht | [[Ht Hm] | [Ht Hm]]].
  - rewrite run_time_arm by done. cbn. rewrite Ht.
    repeat split; try done; by intros [? _].
  - rewrite run_math_arm by done. cbn. rewrite Ht.
    apply orb_true_iff in Hm as [Hm | Hd].
    + apply orb_true_iff in Hm as [Hm | Hp].
      * apply orb_true_iff in Hm as [Ha | Hs].
        -- rewrite Ha. repeat split; try done; [by eauto | by intros (_ & ? & _)].
        -- rewrite Hs. repeat split; try done; [by eauto | by intros (_ & _ & ? & _)].
      * rewrite Hp. repeat split; try done; [by eauto | by intros (_ & _ & _ & ? & _)].
    + rewrite Hd. repeat split; try done; [by eauto | by intros (_ & _ & _ & _ & ?)].
  - rewrite run_no_match_arm by done. cbn. rewrite Ht.
    apply orb_false_iff in Hm as [Hm Hd].
    apply orb_false_iff in Hm as [Hm Hp].
    apply orb_false_iff in Hm as [Ha Hs].
    rewrite Ha, Hs, Hp, Hd.
    repeat split; try done. intros [_ [? | [? | [? | ?]]]]; done.
Qed.

(** X2. When the expected key is in the session state once the branch has
    run, the text of the final Event is the prefix of the branch followed
    by the stored value as an f-string renders it.  The Router does not
    ask who wrote the value: one left in the session before this run is
    reported all the same when the branch stores nothing. *)
Theorem summary_reports_state_value `{Runtime} (self : MasterOrchestrator)
    (ctx : InvocationContext) (st : gmap string Value) (b : Branch) (v : Value) :
  delegations (effects (run self ctx st).1) = [b] ->
  run_state (branch_of self b ctx st)
    !! (match b with TimeBranch => "time_result" | MathBranch => "calc_result" end)
  = Some v ->
  last (yielded (run self ctx st).1)
  = Some {| author := name self;
            content :=
              Some {| role := Some "model";
                      parts :=
                        Some [ {| text :=
                                    Some ((match b with
                                           | TimeBranch => "The time is: "
                                           | MathBranch => "The calculated result is: "
                                           end) +:+ format_value v) |} ] |} |}.
Proof.
  destruct (run_cases ctx) as [Ht | [[Ht Hm] | [Ht Hm]]].
  - rewrite run_time_arm by done. cbn. intros [= <-]. cbn. intros ->.
    by rewrite last_snoc.
  - rewrite run_math_arm by done. cbn. intros [= <-]. cbn. intros ->.
    by rewrite last_snoc.
  - rewrite run_no_match_arm by done. cbn. intros [=].
Qed.

Lemma summary_reports_state_value_witness :
  last (yielded (run silent_master (user_message time_query)
                   {[ "time_result" := "yesterday noon" ]}).1)
  = Some {| author := "MasterOrchestrator";
            content :=
              Some {| role := Some "model";
                      parts := Some [ {| text := Some ("The time is: " +:+ "yesterday noon") |} ] |} |}.
Proof.
  apply (summary_reports_state_value silent_master (user_message time_query)
           {[ "time_result" := "yesterday noon" ]} TimeBranch "yesterday noon").
  - vm_compute. reflexivity.
  - vm_compute. reflexivity.
Defined.

(** X3. A message whose first part carries no text, or an empty one, is
    answered with the fallback and reaches no branch, whatever the parts
    after it say; this needs only that lower-casing the empty string gives
    the empty string. *)
Theorem textless_first_part_falls_back `{Runtime} (self : MasterOrchestrator)
    (r : option string) (p : Part) (rest : list Part) (st : gmap string Value) :
  lower "" = "" ->
  text p = None \/ text p = Some "" ->
  run self {| user_content := Some {| role := r; parts := Some (p :: rest) |} |} st
  = ({| session_state := st;
        yielded := [text_event (name self) "I can only help with Math or Time requests."];
        effects := [];
        final_text := Some "I can only help with Math or Time requests." |},
     Returned ()).
Proof.
  intros Hlow Htext.
  assert (lower (user_input
            {| user_content := Some {| role := r; parts := Some (p :: rest) |} |}) = "")
    as Hin.
  { unfold user_input. simpl. by destruct Htext as [-> | ->]. }
  apply run_no_match_arm; by rewrite Hin.
Qed.

Lemma textless_first_part_falls_back_witness :
  run master
    {| user_content :=
         Some {| role := Some "user";
                 parts := Some [ {| text := None |};
                                 {| text := Some "What is the time?" |} ] |} |} ∅
  = ({| session_state := ∅;
        yielded := [text_event "MasterOrchestrator"
                      "I can only help with Math or Time requests."];
        effects := [];
        final_text := Some "I can only help with Math or Time requests." |},
     Returned ()).
Proof.
  apply (textless_first_part_falls_back master (Some "user") {| text := None |}
           [ {| text := Some "What is the time?" |} ] ∅).
  - reflexivity.
  - by left.
Defined.

(** * The loops that print the Events *)

Lemma print_events_app (l1 l2 : list Event) :
  print_events (l1 ++ l2) = print_events l1 ++ print_events l2.
Proof. apply omap_app. Qed.

(** X4. What the loop of [main] prints for a run of the Router in which
    the branch the Router delegates to, if there is one, returns: the
    lines of the delegated branch's Events, then the Router's final text
    as the last line.  When the branch raises, the loop has printed the
    lines of the Events the branch yielded and nothing after them. *)
Theorem main_prints_summary_if_branch_returns `{Runtime} (self : MasterOrchestrator)
    (ends : BranchEnds) (ctx : InvocationContext) (st : gmap string Value) :
  (selected_branch_returns self ends ctx st ->
   exists t : string,
     final_text (run_raising self ends ctx st).1 = Some t
     /\ (run_raising self ends ctx st).2 = Returned ()
     /\ print_events (yielded (run_raising self ends ctx st).1)
        = print_events
            (delegated_events self ctx st
               (delegations (effects (run_raising self ends ctx st).1)))
          ++ [t]
     /\ last (print_events (yielded (run_raising self ends ctx st).1)) = Some t)
  /\ (forall b e,
        delegations (effects (run_raising self ends ctx st).1) = [b] ->
        ends b ctx st = RunRaises e ->
        (run_raising self ends ctx st).2 = Raised (Propagated e)
        /\ print_events (yielded (run_raising self ends ctx st).1)
           = print_events (run_events (branch_of self b ctx st))).
Proof.
  split.
  - intros Hret. rewrite (run_raising_returns _ _ _ _ Hret).
    destruct (run_cases ctx) as [Ht | [[Ht Hm] | [Ht Hm]]].
    + rewrite run_time_arm by done. cbn. eexists. split; [done |].
      split; [done |].
      rewrite print_events_app, app_nil_r. cbn. by rewrite last_snoc.
    + rewrite run_math_arm by done. cbn. eexists. split; [done |].
      split; [done |].
      rewrite print_events_app, app_nil_r. cbn. by rewrite last_snoc.
    + rewrite run_no_match_arm by done. cbn. by eexists.
  - intros b e Hb He.
    destruct (run_raising_outcome self ends ctx st)
      as [Hok | (b' & e' & Hb' & He' & Hout & Hy & _)].
    + exfalso. revert Hb Hok.
      destruct (run_cases ctx) as [Ht | [[Ht Hm] | [Ht Hm]]].
      * rewrite run_raising_time_arm by done.
        destruct (ends TimeBranch ctx st) eqn:Hend; [| done].
        rewrite run_time_arm by done. cbn. intros [= <-]. congruence.
      * rewrite run_raising_math_arm by done.
        destruct (ends MathBranch ctx st) eqn:Hend; [| done].
        rewrite run_math_arm by done. cbn. intros [= <-]. congruence.
      * rewrite run_raising_no_match_arm, run_no_match_arm by done. done.
    + rewrite Hb in Hb'. injection Hb' as <-.
      rewrite He in He'. injection He' as <-.
      by rewrite Hout, Hy.
Qed.

Lemma main_prints_summary_if_branch_returns_witness :
  exists t : string,
    final_text (run_raising master both_return (user_message time_query) ∅).1 = Some t
    /\ (run_raising master both_return (user_message time_query) ∅).2 = Returned ()
    /\ print_events (yielded (run_raising master both_return
                                (user_message time_query) ∅).1)
       = print_events
           (delegated_events master (user_message time_query) ∅
              (delegations (effects (run_raising master both_return
                                       (user_message time_query) ∅).1)))
         ++ [t]
    /\ last (print_events (yielded (run_raising master both_return
                                      (user_message time_query) ∅).1)) = Some t.
Proof.
  apply (main_prints_summary_if_branch_returns master both_return
           (user_message time_query) ∅).
  intros b _. reflexivity.
Defined.



(** * The tools *)

(** X6. [subtract] undoes [add] and [add] undoes [subtract], for all
    integers: Python integers do not wrap around. *)
Theorem add_subtract_inverse (a b : Z) :
  subtract (add a b) b = a /\ add (subtract a b) b = a.
Proof. unfold add, subtract. lia. Qed.

(** X7. [tell_weather] creates one client in imperial units and makes one
    look-up, for the city as given.  It closes the client exactly when the
    look-up succeeds, and then returns the sentence with the city and the
    temperature in decimal; when the look-up raises, the exception leaves
    the tool and the client is never closed. *)
Theorem tell_weather_closes_only_on_success (service : WeatherService)
    (city : string) (log : list IOEvent) :
  exists rest,
    (tell_weather service city log).1
    = log ++ [WeatherClientNew "IMPERIAL"; WeatherGet city] ++ rest
    /\ ((rest = [WeatherClientClose]
         /\ exists temperature,
              service city = inr temperature
              /\ (tell_weather service city log).2
                 = inr ("The current temperature in " +:+ city +:+ " is "
                        +:+ pretty temperature +:+ "°F."))
        \/ (rest = []
            /\ exists e,
                 service city = inl e
                 /\ (tell_weather service city log).2 = inl (ServiceError e))).
Proof.
  unfold tell_weather, weather_get, emit, mbind, coro_bind, mret, coro_ret. cbn.
  destruct (service city) as [e | temperature]; cbn.
  - exists []. rewrite <- !app_assoc. split; [done |]. right. eauto.
  - exists [WeatherClientClose]. rewrite <- !app_assoc. split; [done |].
    left. eauto.
Qed.

(** ** The prediction tools *)

Lemma fetch_age_run (http : Http) (name : string) (log : list IOEvent) :
  fetch_age http name log =
    match http "https://api.agify.io" [("name", name)] with
    | RequestFailed e =>
        (log ++ [SessionOpen; HttpGet "https://api.agify.io" [("name", name)] 5;
                 SessionClose],
         inl (ServiceError e))
    | Response body =>
        (log ++ [SessionOpen; HttpGet "https://api.agify.io" [("name", name)] 5;
                 ResponseRelease; SessionClose],
         match body with
         | inl e => inl (ServiceError e)
         | inr (PyDict d) =>
             inr (PyDict {[ "age" := default PyNone (d !! "age");
                            "count" := default PyNone (d !! "count") ]})
         | inr _ => inl (AttributeError "get")
         end)
    end.
Proof.
  unfold fetch_age, async_with, client_session, session_close, session_get,
    response_release, resp_json, py_get, emit, raise,
    mbind, coro_bind, mret, coro_ret. cbn.
  destruct (http _ _) as [e | [e | data]]; cbn; rewrite <- ?app_assoc; cbn;
    [done | done |].
  by destruct data.
Qed.

Lemma fetch_gender_run (http : Http) (name : string) (log : list IOEvent) :
  fetch_gender http name log =
    match http "https://api.genderize.io" [("name", name)] with
    | RequestFailed e =>
        (log ++ [SessionOpen; HttpGet "https://api.genderize.io" [("name", name)] 5;
                 SessionClose],
         inl (ServiceError e))
    | Response body =>
        (log ++ [SessionOpen; HttpGet "https://api.genderize.io" [("name", name)] 5;
                 ResponseRelease; SessionClose],
         match body with
         | inl e => inl (ServiceError e)
         | inr (PyDict d) =>
             inr (PyDict {[ "gender" := default PyNone (d !! "gender");
                            "probability" := default PyNone (d !! "probability") ]})
         | inr _ => inl (AttributeError "get")
         end)
    end.
Proof.
  unfold fetch_gender, async_with, client_session, session_close, session_get,
    response_release, resp_json, py_get, emit, raise,
    mbind, coro_bind, mret, coro_ret. cbn.
  destruct (http _ _) as [e | [e | data]]; cbn; rewrite <- ?app_assoc; cbn;
    [done | done |].
  by destruct data.
Qed.

(** X8. Whatever the network answers, and whether they return or raise,
    [fetch_age] and [fetch_gender] each open one session, send one GET
    request, to their own service, with the name as the only parameter and
    a timeout of 5 seconds, release the response exactly when one arrived,
    and close the session as the last thing they do to the outside. *)
Theorem fetch_tools_close_their_session (http : Http) (name : string)
    (log : list IOEvent) :
  (exists mid,
     (fetch_age http name log).1
     = log ++ [SessionOpen; HttpGet "https://api.agify.io" [("name", name)] 5]
           ++ mid ++ [SessionClose]
     /\ ((mid = []
          /\ exists e, http "https://api.agify.io" [("name", name)]
                       = RequestFailed e)
         \/ (mid = [ResponseRelease]
             /\ exists body, http "https://api.agify.io" [("name", name)]
                             = Response body)))
  /\ (exists mid,
        (fetch_gender http name log).1
        = log ++ [SessionOpen; HttpGet "https://api.genderize.io" [("name", name)] 5]
              ++ mid ++ [SessionClose]
        /\ ((mid = []
             /\ exists e, http "https://api.genderize.io" [("name", name)]
                          = RequestFailed e)
            \/ (mid = [ResponseRelease]
                /\ exists body, http "https://api.genderize.io" [("name", name)]
                                = Response body))).
Proof.
  rewrite fetch_age_run, fetch_gender_run. split.
  - destruct (http "https://api.agify.io" _) as [e | body];
      [exists [] | exists [ResponseRelease]]; (split; [done |]);
      [left | right]; eauto.
  - destruct (http "https://api.genderize.io" _) as [e | body];
      [exists [] | exists [ResponseRelease]]; (split; [done |]);
      [left | right]; eauto.
Qed.

(** X9. When agify answers with a JSON object, [fetch_age] returns a dict
    with exactly the keys "age" and "count": each holds the field of the
    answer, or [None] when the answer has no such field, and every other
    field of the answer is dropped. *)
Theorem fetch_age_keeps_two_fields (http : Http) (name : string)
    (d : gmap string PyObj) :
  http "https://api.agify.io" [("name", name)] = Response (inr (PyDict d)) ->
  exists r,
    (fetch_age http name []).2 = inr (PyDict r)
    /\ dom r = {[ "age"; "count" ]}
    /\ r !! "age" = Some (default PyNone (d !! "age"))
    /\ r !! "count" = Some (default PyNone (d !! "count")).
Proof.
  intros Hreply. rewrite fetch_age_run, Hreply. cbn.
  eexists. split; [done |]. split; [| split].
  - rewrite dom_insert_L, dom_singleton_L. done.
  - by rewrite lookup_insert_eq.
  - rewrite lookup_insert_ne by done. by rewrite lookup_singleton_eq.
Qed.

Lemma fetch_age_keeps_two_fields_witness :
  exists r,
    (fetch_age sample_http "Aditya" []).2 = inr (PyDict r)
    /\ dom r = {[ "age"; "count" ]}
    /\ r !! "age"
       = Some (default PyNone
                 (({[ "name" := PyStr "Aditya"; "age" := PyInt 33;
                      "count" := PyInt 2061 ]} : gmap string PyObj) !! "age"))
    /\ r !! "count"
       = Some (default PyNone
                 (({[ "name" := PyStr "Aditya"; "age" := PyInt 33;
                      "count" := PyInt 2061 ]} : gmap string PyObj) !! "count")).
Proof.
  apply (fetch_age_keeps_two_fields sample_http "Aditya").
  reflexivity.
Defined.

(** X10. When genderize answers with a JSON object, [fetch_gender] returns
    a dict with exactly the keys "gender" and "probability": each holds
    the field of the answer, or [None] when the answer has no such
    field. *)
Theorem fetch_gender_keeps_two_fields (http : Http) (name : string)
    (d : gmap string PyObj) :
  http "https://api.genderize.io" [("name", name)] = Response (inr (PyDict d)) ->
  exists r,
    (fetch_gender http name []).2 = inr (PyDict r)
    /\ dom r = {[ "gender"; "probability" ]}
    /\ r !! "gender" = Some (default PyNone (d !! "gender"))
    /\ r !! "probability" = Some (default PyNone (d !! "probability")).
Proof.
  intros Hreply. rewrite fetch_gender_run, Hreply. cbn.
  eexists. split; [done |]. split; [| split].
  - rewrite dom_insert_L, dom_singleton_L. done.
  - by rewrite lookup_insert_eq.
  - rewrite lookup_insert_ne by done. by rewrite lookup_singleton_eq.
Qed.

Lemma fetch_gender_keeps_two_fields_witness :
  exists r,
    (fetch_gender sample_http "Aditya" []).2 = inr (PyDict r)
    /\ dom r = {[ "gender"; "probability" ]}
    /\ r !! "gender"
       = Some (default PyNone
                 (({[ "gender" := PyStr "male" ]} : gmap string PyObj) !! "gender"))
    /\ r !! "probability"
       = Some (default PyNone
                 (({[ "gender" := PyStr "male" ]} : gmap string PyObj) !! "probability")).
Proof.
  apply (fetch_gender_keeps_two_fields sample_http "Aditya").
  reflexivity.
Defined.

Lemma fetch_age_returns_iff (http : Http) (name : string) :
  (exists r, (fetch_age http name []).2 = inr r)
  <-> exists d, http "https://api.agify.io" [("name", name)]
                = Response (inr (PyDict d)).
Proof.
  rewrite fetch_age_run.
  destruct (http "https://api.agify.io" _) as [e | [e | data]]; cbn.
  - split; [by intros [r [=]] | by intros [d [=]]].
  - split; [by intros [r [=]] | by intros [d [=]]].
  - destruct data; cbn;
      (split; [intros [r [=]]; eauto | intros [d' [=]]; eauto]).
Qed.

Lemma fetch_gender_returns_iff (http : Http) (name : string) :
  (exists r, (fetch_gender http name []).2 = inr r)
  <-> exists d, http "https://api.genderize.io" [("name", name)]
                = Response (inr (PyDict d)).
Proof.
  rewrite fetch_gender_run.
  destruct (http "https://api.genderize.io" _) as [e | [e | data]]; cbn.
  - split; [by intros [r [=]] | by intros [d [=]]].
  - split; [by intros [r [=]] | by intros [d [=]]].
  - destruct data; cbn;
      (split; [intros [r [=]]; eauto | intros [d' [=]]; eauto]).
Qed.

Lemma fetch_age_raises_iff (http : Http) (name : string) :
  ((fetch_age http name []).2 = inl (AttributeError "get")
     <-> exists data, http "https://api.agify.io" [("name", name)]
                      = Response (inr data)
                      /\ forall d, data <> PyDict d)
  /\ (forall e,
        (fetch_age http name []).2 = inl (ServiceError e)
        <-> http "https://api.agify.io" [("name", name)] = RequestFailed e
            \/ http "https://api.agify.io" [("name", name)] = Response (inl e))
  /\ (forall attr,
        (fetch_age http name []).2 = inl (AttributeError attr) -> attr = "get").
Proof.
  rewrite fetch_age_run.
  destruct (http "https://api.agify.io" _) as [e | [e | data]]; cbn.
  - split; [| split].
    + split; [by intros [=] | by intros (data & [=] & _)].
    + intros e'. split; [intros [= <-]; by left | by intros [[= <-] | [=]]].
    + by intros attr [=].
  - split; [| split].
    + split; [by intros [=] | by intros (data & [=] & _)].
    + intros e'. split; [intros [= <-]; by right | by intros [[=] | [= <-]]].
    + by intros attr [=].
  - split; [| split].
    + split.
      * intros Hraise. exists data. split; [done |].
        intros d ->. discriminate.
      * intros (data' & [= <-] & Hno).
        destruct data; try done. by destruct (Hno d).
    + intros e'. split; [| by intros [[=] | [=]]].
      by destruct data.
    + intros attr. destruct data; by intros [=].
Qed.

Lemma fetch_gender_raises_iff (http : Http) (name : string) :
  ((fetch_gender http name []).2 = inl (AttributeError "get")
     <-> exists data, http "https://api.genderize.io" [("name", name)]
                      = Response (inr data)
                      /\ forall d, data <> PyDict d)
  /\ (forall e,
        (fetch_gender http name []).2 = inl (ServiceError e)
        <-> http "https://api.genderize.io" [("name", name)] = RequestFailed e
            \/ http "https://api.genderize.io" [("name", name)] = Response (inl e))
  /\ (forall attr,
        (fetch_gender http name []).2 = inl (AttributeError attr) -> attr = "get").
Proof.
  rewrite fetch_gender_run.
  destruct (http "https://api.genderize.io" _) as [e | [e | data]]; cbn.
  - split; [| split].
    + split; [by intros [=] | by intros (data & [=] & _)].
    + intros e'. split; [intros [= <-]; by left | by intros [[= <-] | [=]]].
    + by intros attr [=].
  - split; [| split].
    + split; [by intros [=] | by intros (data & [=] & _)].
    + intros e'. split; [intros [= <-]; by right | by intros [[=] | [= <-]]].
    + by intros attr [=].
  - split; [| split].
    + split.
      * intros Hraise. exists data. split; [done |].
        intros d ->. discriminate.
      * intros (data' & [= <-] & Hno).
        destruct data; try done. by destruct (Hno d).
    + intros e'. split; [| by intros [[=] | [=]]].
      by destruct data.
    + intros attr. destruct data; by intros [=].
Qed.

(** X11. [fetch_age] and [fetch_gender] return exactly when their service
    answers with a JSON object.  They raise [AttributeError], for the
    method [get] and no other, exactly when the body decodes to some other
    JSON value (an array, a string, a number, null); and they raise the
    error [e] of the service exactly when the request fails with [e] or
    the body cannot be decoded and [resp.json()] raises [e]. *)
Theorem fetch_tools_return_iff_object (http : Http) (name : string) :
  ((exists r, (fetch_age http name []).2 = inr r)
     <-> exists d, http "https://api.agify.io" [("name", name)]
                   = Response (inr (PyDict d)))
  /\ ((fetch_age http name []).2 = inl (AttributeError "get")
        <-> exists data, http "https://api.agify.io" [("name", name)]
                         = Response (inr data)
                         /\ forall d, data <> PyDict d)
  /\ (forall e,
        (fetch_age http name []).2 = inl (ServiceError e)
        <-> http "https://api.agify.io" [("name", name)] = RequestFailed e
            \/ http "https://api.agify.io" [("name", name)] = Response (inl e))
  /\ (forall attr,
        (fetch_age http name []).2 = inl (AttributeError attr) -> attr = "get")
  /\ ((exists r, (fetch_gender http name []).2 = inr r)
        <-> exists d, http "https://api.genderize.io" [("name", name)]
                      = Response (inr (PyDict d)))
  /\ ((fetch_gender http name []).2 = inl (AttributeError "get")
        <-> exists data, http "https://api.genderize.io" [("name", name)]
                         = Response (inr data)
                         /\ forall d, data <> PyDict d)
  /\ (forall e,
        (fetch_gender http name []).2 = inl (ServiceError e)
        <-> http "https://api.genderize.io" [("name", name)] = RequestFailed e
            \/ http "https://api.genderize.io" [("name", name)] = Response (inl e))
  /\ (forall attr,
        (fetch_gender http name []).2 = inl (AttributeError attr) -> attr = "get").
Proof.
  destruct (fetch_age_raises_iff http name) as (Ha1 & Ha2 & Ha3).
  destruct (fetch_gender_raises_iff http name) as (Hg1 & Hg2 & Hg3).
  pose proof (fetch_age_returns_iff http name) as Ha0.
  pose proof (fetch_gender_returns_iff http name) as Hg0.
  repeat split; try (by apply Ha0); try (by apply Hg0);
    try (by apply Ha1); try (by apply Hg1);
    try (by apply Ha2); try (by apply Hg2); auto.
Qed.

(** X12. [fetch_demographics] is all or nothing: it returns exactly when
    both services answer with a JSON object, whichever of the two requests
    ends first, and it raises as soon as one of them raises, with no
    partial result; the exception it raises is the one [fetch_age] or
    [fetch_gender] raised.  What it returns is a dict with exactly the
    keys "name", "age_prediction" and "gender_prediction", holding the
    name as given, the result of [fetch_age] and the result of
    [fetch_gender]. *)
Theorem fetch_demographics_all_or_nothing (left_first : bool) (http : Http)
    (name : string) :
  ((exists r, fetch_demographics left_first http name = inr r)
     <-> (exists da, http "https://api.agify.io" [("name", name)]
                     = Response (inr (PyDict da)))
         /\ (exists dg, http "https://api.genderize.io" [("name", name)]
                        = Response (inr (PyDict dg))))
  /\ (forall r,
        fetch_demographics left_first http name = inr r ->
        exists m age gender,
          r = PyDict m
          /\ dom m = {[ "name"; "age_prediction"; "gender_prediction" ]}
          /\ m !! "name" = Some (PyStr name)
          /\ m !! "age_prediction" = Some age
          /\ (fetch_age http name []).2 = inr age
          /\ m !! "gender_prediction" = Some gender
          /\ (fetch_gender http name []).2 = inr gender)
  /\ (forall e,
        (fetch_age http name []).2 = inl e \/ (fetch_gender http name []).2 = inl e ->
        exists e', fetch_demographics left_first http name = inl e')
  /\ (forall e,
        fetch_demographics left_first http name = inl e ->
        (fetch_age http name []).2 = inl e \/ (fetch_gender http name []).2 = inl e).
Proof.
  pose proof (fetch_age_returns_iff http name) as Hage.
  pose proof (fetch_gender_returns_iff http name) as Hgender.
  unfold fetch_demographics, gather.
  destruct (fetch_age http name []).2 as [ea | age] eqn:Ha;
    destruct (fetch_gender http name []).2 as [eg | gender] eqn:Hg.
  - split; [| split; [| split]].
    + split; [by intros [r [=]] |].
      intros [Hda _]. apply Hage in Hda as [r [=]].
    + by intros r [=].
    + intros e _. by eexists.
    + intros e [= <-]. destruct left_first; auto.
  - split; [| split; [| split]].
    + split; [by intros [r [=]] |].
      intros [Hda _]. apply Hage in Hda as [r [=]].
    + by intros r [=].
    + intros e _. by eexists.
    + intros e [= <-]. auto.
  - split; [| split; [| split]].
    + split; [by intros [r [=]] |].
      intros [_ Hdg]. apply Hgender in Hdg as [r [=]].
    + by intros r [=].
    + intros e _. by eexists.
    + intros e [= <-]. auto.
  - split; [| split; [| split]].
    + split; [| by eexists].
      intros _. split; [apply Hage | apply Hgender]; by eexists.
    + intros r [= <-]. eexists _, age, gender. split; [done |].
      split; [| by repeat split].
      rewrite !dom_insert_L, dom_singleton_L. set_solver.
    + by intros e [[=] | [=]].
    + by intros e [=].
Qed.
